(** * Auto deny rules: the traffic verifier and the orchestrator

    A shallow embedding of [auto-deny-rules.go].  The program asks a policy
    engine, for every (environment, application, risky service) triple,
    whether any traffic flow was seen in the last 24 hours and, when none
    was, in the last 89 days; the applications of an (environment, service)
    group that stayed silent in both windows end up in one deny rule.

    The transport ([apiRequestWithRetry], the HTTP exchange with its
    retries) and the Go runtime (clock, timers, [select]) are the
    environment: a [World] holds what they will answer and records what the
    program did to them. *)

From Stdlib Require Import ZArith QArith Lia Ascii String.
From stdpp Require Import gmap strings list fin_maps pretty.
Close Scope Q_scope.

#[local] Set Warnings "-register-all".

(** ** Data model *)

Definition error : Type := string.

(** A Go result pair [(v, err)]: [Err e] is [return zero, e]. *)
Inductive result (A : Type) : Type :=
  | Ok (a : A)
  | Err (e : error).
Arguments Ok {A} a.
Arguments Err {A} e.

Record Label : Type := mkLabel {
  Href : string;
  Key : string;
  Value : string;
}.

Record ServicePort : Type := mkServicePort {
  Port : Z;
  Proto : Z;
  ToPort : Z;
}.

Record Service : Type := mkService {
  ServiceHref : string;
  Name : string;
  ServicePorts : list ServicePort;
}.

Record denyRuleInfo : Type := mkDenyRuleInfo {
  dr_env : Label;
  dr_service : Service;
  dr_apps : list Label;
}.

#[global] Instance Label_eq_dec : EqDecision Label.
Proof. solve_decision. Defined.
#[global] Instance ServicePort_eq_dec : EqDecision ServicePort.
Proof. solve_decision. Defined.
#[global] Instance Service_eq_dec : EqDecision Service.
Proof. solve_decision. Defined.

(** A value of type [interface{}]: what the payload maps hold and what
    [json.Unmarshal] puts into a [map[string]interface{}] (there every JSON
    number is a [float64]).  A [float64] read from JSON is finite, so a
    rational stands for it; the program only compares it with zero.  A nil
    slice ([var ports []T]) is kept apart from an empty one ([make([]T, 0)],
    [[]T{}]): both have length 0. *)
Inductive GoVal : Type :=
  | VNil
  | VBool (b : bool)
  | VInt (n : Z)
  | VFloat (q : Q)
  | VStr (s : string)
  | VNilSlice
  | VSlice (l : list GoVal)
  | VMap (m : gmap string GoVal).

(** [append(s, x)] *)
Definition goAppend (s : GoVal) (x : GoVal) : GoVal :=
  match s with
  | VSlice l => VSlice (l ++ [x])
  | _ => VSlice [x]
  end.

(** The elements of a slice, [len] being their number. *)
Definition elems (s : GoVal) : list GoVal :=
  match s with
  | VSlice l => l
  | _ => []
  end.

(** A map literal. *)
Definition goMap (kvs : list (string * GoVal)) : GoVal :=
  VMap (list_to_map kvs).

(** [v.(string)] and [v.(float64)] on the result of a map lookup, as
    [x, ok := m[k].(T)]. *)
Definition asString (v : option GoVal) : option string :=
  match v with
  | Some (VStr s) => Some s
  | _ => None
  end.

Definition asFloat64 (v : option GoVal) : option Q :=
  match v with
  | Some (VFloat q) => Some q
  | _ => None
  end.

(** [f > 0] on a [float64]. *)
Definition gt0 (f : Q) : bool :=
  if Qlt_le_dec 0 f then true else false.

(** Package variables. *)
Definition fqdn : string := "test.domain.com".
Definition port : string := "443".
Definition org : string := "123".

(** [time.Duration] counts nanoseconds. *)
Definition Second : Z := 1000000000.
Definition Minute : Z := 60 * Second.
Definition Hour : Z := 60 * Minute.
Definition RFC3339 : string := "2006-01-02T15:04:05Z07:00".

(** ** The environment *)

Inductive method : Type := GET | POST.

Record request : Type := mkRequest {
  reqMethod : method;
  reqURL : string;
  reqPayload : option GoVal;
}.

Record IPList : Type := mkIPList {
  ipHref : string;
  ipName : string;
}.

(** A response body is known by what [json.Unmarshal] makes of it in each
    destination the program decodes into. *)
Record Body : Type := mkBody {
  asObject : result (gmap string GoVal);   (* map[string]interface{} *)
  asLabels : result (list Label);          (* []Label *)
  asServices : result (list Service);      (* []Service *)
  asWorkloads : result (list (list Label));(* []struct{ Labels []Label } *)
  asIPLists : result (list IPList);        (* []struct{ Href, Name string } *)
}.

(** The outcome of one [apiRequestWithRetry] call: the body of a 2xx
    answer, or the last error once the retries are used up. *)
Inductive reply : Type :=
  | Unreachable (lastErr : string)
  | Answer (b : Body).

(** The two channels the polling loop selects on. *)
Inductive chan : Type := TimeoutC | TickerC.

Inductive event : Type :=
  | Request (r : request)
  | After (d : Z)
  | NewTicker (d : Z)
  | Recv (c : chan)
  | Stop.

(** [clock]: what [time.Now()] reads, in nanoseconds; each function below
    reads it at most once.  [net]: the outcomes of the coming transport
    calls, in order; when they run out the transport fails.  [fires]: the
    case each coming [select] of a polling loop takes; when they run out
    the timer has fired.  [trace]: what was done so far, most recent
    first. *)
Record World : Type := mkWorld {
  clock : Z;
  net : list reply;
  fires : list chan;
  trace : list event;
}.

Definition M (A : Type) : Type := World -> result A * World.

#[global] Instance M_ret : MRet M := fun A a w => (Ok a, w).
#[global] Instance M_bind : MBind M := fun A B f m w =>
  match m w with
  | (Ok a, w') => f a w'
  | (Err e, w') => (Err e, w')
  end.

Definition fail {A : Type} (e : error) : M A := fun w => (Err e, w).

Definition lift {A : Type} (r : result A) : M A := fun w => (r, w).

Definition emit (e : event) : M unit := fun w =>
  (Ok tt, mkWorld (clock w) (net w) (fires w) (e :: trace w)).

(** [time.Now()] *)
Definition timeNow : M Z := fun w => (Ok (clock w), w).

(** [case <-c:] taken by a [select], the schedule moving on to [rest]. *)
Definition recv (c : chan) (rest : list chan) : M unit := fun w =>
  (Ok tt, mkWorld (clock w) (net w) rest (Recv c :: trace w)).

Definition apiRequestWithRetry (m : method) (urlStr : string)
    (payload : option GoVal) : M Body := fun w =>
  let w' := mkWorld (clock w) (tail (net w)) (fires w)
              (Request (mkRequest m urlStr payload) :: trace w) in
  match net w with
  | Answer b :: _ => (Ok b, w')
  | Unreachable e :: _ =>
      (Err ("apiRequest failed after 3 retries: " +:+ e), w')
  | [] => (Err "apiRequest failed after 3 retries: no answer", w')
  end.

(** The schedule the coming [select]s follow. *)
Definition schedule : M (list chan) := fun w => (Ok (fires w), w).

(** [defer ticker.Stop()]: runs when [body] returns, whatever it returns. *)
Definition deferStop {A : Type} (body : M A) : M A := fun w =>
  let '(r, w') := body w in (r, snd (emit Stop w')).

(** ** Traffic verifier *)

Definition buildDestExclusions (broadcast multicast : bool) : GoVal :=
  let excl := VSlice [] in
  let excl :=
    if broadcast
    then goAppend excl (goMap [("transmission", VStr "broadcast")])
    else excl in
  let excl :=
    if multicast
    then goAppend excl (goMap [("transmission", VStr "multicast")])
    else excl in
  excl.

(** One entry of the service filter (the body of the loop over
    [service.ServicePorts]). *)
Definition portEntry (sp : ServicePort) : gmap string GoVal :=
  let p : gmap string GoVal :=
    <["proto" := VInt (Proto sp)]> {["port" := VInt (Port sp)]} in
  if decide (ToPort sp ≠ 0%Z)
  then <["to_port" := VInt (ToPort sp)]> p
  else p.

Definition buildPorts (service : Service) : GoVal :=
  foldl (fun ports sp => goAppend ports (VMap (portEntry sp)))
        VNilSlice (ServicePorts service).

Definition statusOf (poll : gmap string GoVal) : string :=
  default "" (asString (poll !! "status")).

Definition flowsCountOf (poll : gmap string GoVal) : Q :=
  default 0%Q (asFloat64 (poll !! "flows_count")).

Definition errTimeout : error := "query timed out after 5 minutes".
Definition errNoHref : error := "query failed to return href".

(** The [for { select { ... } }] loop of [runSingleAsyncQuery]; [fs] is the
    schedule of the world it runs in. *)
Fixpoint pollLoop (href : string) (fs : list chan) : M bool :=
  match fs with
  | [] => _ ← recv TimeoutC []; fail errTimeout
  | TimeoutC :: fs' => _ ← recv TimeoutC fs'; fail errTimeout
  | TickerC :: fs' =>
      _ ← recv TickerC fs';
      pollBytes ← apiRequestWithRetry GET
        ("https://" +:+ fqdn +:+ ":" +:+ port +:+ "/api/v2" +:+ href) None;
      poll ← lift (asObject pollBytes);
      let status := statusOf poll in
      let flowsCount := flowsCountOf poll in
      if decide (status = "completed")
      then mret (gt0 flowsCount)
      else pollLoop href fs'
  end.

Definition runSingleAsyncQuery (baseURL : string) (payload : GoVal) : M bool :=
  respBytes ← apiRequestWithRetry POST baseURL (Some payload);
  resp ← lift (asObject respBytes);
  match asString (resp !! "href") with
  | None => fail errNoHref
  | Some href =>
      if decide (href = "") then fail errNoHref else
      _ ← emit (After (5 * Minute));
      _ ← emit (NewTicker (5 * Second));
      deferStop (fs ← schedule; pollLoop href fs)
  end.

Section Verifier.

(** [Time.Format]: the layout and the instant, in nanoseconds. *)
Variable Format : string -> Z -> string.

Definition queryPayload (envHref appHref : string) (service : Service)
    (excludeBroadcast excludeMulticast : bool) (start end_ : string) : GoVal :=
  goMap [
    ("sources", goMap [
       ("include", VSlice [VSlice []]);
       ("exclude", VSlice [])]);
    ("destinations", goMap [
       ("include", VSlice [VSlice [
          goMap [("label", goMap [("href", VStr envHref)])];
          goMap [("label", goMap [("href", VStr appHref)])]]]);
       ("exclude", buildDestExclusions excludeBroadcast excludeMulticast)]);
    ("services", goMap [
       ("include", buildPorts service);
       ("exclude", VSlice [])]);
    ("sources_destinations_query_op", VStr "and");
    ("start_date", VStr start);
    ("end_date", VStr end_);
    ("policy_decisions", VSlice []);
    ("boundary_decisions", VSlice []);
    ("query_name", VStr ("Query Env: " +:+ envHref +:+ " App: " +:+ appHref));
    ("exclude_workloads_from_ip_list_query", VBool true);
    ("max_results", VInt 1)].

Definition queryURL : string :=
  "https://" +:+ fqdn +:+ ":" +:+ port +:+ "/api/v2/orgs/" +:+ org
    +:+ "/traffic_flows/async_queries".

Definition submitTrafficQuery (envHref appHref : string) (service : Service)
    (excludeBroadcast excludeMulticast : bool) : M bool :=
  now ← timeNow;
  let start24h := Format RFC3339 (now + (-24) * Hour) in
  let start89d := Format RFC3339 (now + (-89) * 24 * Hour) in
  let end_ := Format RFC3339 now in
  let payload := queryPayload envHref appHref service
                   excludeBroadcast excludeMulticast in
  let url := queryURL in
  (* 24-hour query *)
  hasFlows ← runSingleAsyncQuery url (payload start24h end_);
  if hasFlows : bool then mret false else
  (* 89-day query - only reached when 24h had no traffic *)
  hasFlows ← runSingleAsyncQuery url (payload start89d end_);
  if hasFlows : bool then mret false else
  (* both windows reported zero flows *)
  mret true.

End Verifier.

(** The Go pair a [(bool, error)] function returns. *)
Definition goPair (r : result bool) : bool * option error :=
  match r with
  | Ok b => (b, None)
  | Err e => (false, Some e)
  end.

(** ** Catalog loader and rule synthesizer *)

(** [fmt.Errorf(prefix + "%w", err)] around a call. *)
Definition wrapErr {A : Type} (prefix : string) (m : M A) : M A := fun w =>
  match m w with
  | (Err e, w') => (Err (prefix +:+ e), w')
  | ok => ok
  end.

Definition apiBase : string := "https://" +:+ fqdn +:+ ":" +:+ port +:+ "/api/v2".

Definition getEnvs : M (list Label) :=
  let urlStr := apiBase +:+ "/orgs/" +:+ org +:+ "/labels?key=env" in
  data ← wrapErr "getEnvs: " (apiRequestWithRetry GET urlStr None);
  labels ← wrapErr "getEnvs unmarshal: " (lift (asLabels data));
  mret labels.

Definition getRansomServices : M (list Service) :=
  let urlStr := apiBase +:+ "/orgs/" +:+ org
                  +:+ "/sec_policy/draft/services?is_ransomware=true" in
  data ← wrapErr "getRansomServices: " (apiRequestWithRetry GET urlStr None);
  services ← wrapErr "getRansomServices unmarshal: " (lift (asServices data));
  mret services.

(** The two nested loops that fill [uniqueApps]. *)
Definition collectApps (workloads : list (list Label)) : gmap string Label :=
  foldl (fun uniqueApps labels =>
           foldl (fun uniqueApps l =>
                    if decide (Key l = "app")
                    then <[Href l := l]> uniqueApps
                    else uniqueApps)
                 uniqueApps labels)
        ∅ workloads.

(** A string between double quotes. *)
Definition quoted (s : string) : string :=
  String (ascii_of_nat 34) (s +:+ String (ascii_of_nat 34) EmptyString).

(** Go ranges over a map in no particular order; [map_to_list] fixes one. *)
Definition getWorkloadsForEnv (env : Label) : M (list Label) :=
  let urlStr := apiBase +:+ "/orgs/" +:+ org
      +:+ "/workloads?managed=true&online=true&labels=[[" +:+ quoted (Href env)
      +:+ "]]&enforcement_modes=[" +:+ quoted "idle" +:+ ","
      +:+ quoted "selective" +:+ "," +:+ quoted "visibility_only" +:+ "]" in
  data ← wrapErr ("getWorkloadsForEnv " +:+ Value env +:+ ": ")
           (apiRequestWithRetry GET urlStr None);
  workloads ← wrapErr "getWorkloadsForEnv unmarshal: " (lift (asWorkloads data));
  let uniqueApps := collectApps workloads in
  mret ((map_to_list uniqueApps).*2).

Definition createRuleset (name : string) : M string :=
  let payload := goMap [
    ("name", VStr name);
    ("description", VStr "Created by Auto Deny Rules script.");
    ("scopes", VSlice [VSlice []])] in
  let url := apiBase +:+ "/orgs/" +:+ org +:+ "/sec_policy/draft/rule_sets" in
  data ← apiRequestWithRetry POST url (Some payload);
  resp ← lift (asObject data);
  mret (default "" (asString (resp !! "href"))).

Definition labelRef (href : string) : GoVal :=
  goMap [("label", goMap [("href", VStr href)])].

Definition denyRulePayload (serviceHref : string) (apps : list Label)
    (env : Label) (ipListHref : string) : GoVal :=
  let providers :=
    foldl (fun providers a => goAppend providers (labelRef (Href a)))
          (VSlice [labelRef (Href env)]) apps in
  goMap [
    ("providers", providers);
    ("consumers", VSlice [goMap [("ip_list", goMap [("href", VStr ipListHref)])]]);
    ("enabled", VBool true);
    ("ingress_services", VSlice [goMap [("href", VStr serviceHref)]]);
    ("egress_services", VSlice []);
    ("network_type", VStr "brn");
    ("description", VStr "")].

Definition createDenyRule (rulesetHref serviceHref : string)
    (apps : list Label) (env : Label) (ipListHref : string) : M unit :=
  let payload := denyRulePayload serviceHref apps env ipListHref in
  let url := apiBase +:+ rulesetHref +:+ "/deny_rules" in
  _ ← apiRequestWithRetry POST url (Some payload);
  mret tt.

(** [url.QueryEscape]: letters, digits and [-_.~] stay, a space becomes
    [+], any other byte becomes [%XX]. *)
Definition hexDigit (n : N) : ascii :=
  match n with
  | 0 => "0" | 1 => "1" | 2 => "2" | 3 => "3" | 4 => "4" | 5 => "5"
  | 6 => "6" | 7 => "7" | 8 => "8" | 9 => "9" | 10 => "A" | 11 => "B"
  | 12 => "C" | 13 => "D" | 14 => "E" | _ => "F"
  end%N%char.

Definition unreserved (c : ascii) : bool :=
  let n := N_of_ascii c in
  ((48 <=? n) && (n <=? 57) || (65 <=? n) && (n <=? 90)
   || (97 <=? n) && (n <=? 122)
   || (n =? 45) || (n =? 95) || (n =? 46) || (n =? 126))%N.

Fixpoint QueryEscape (s : string) : string :=
  match s with
  | EmptyString => EmptyString
  | String c rest =>
      if unreserved c then String c (QueryEscape rest)
      else if (N_of_ascii c =? 32)%N then String "+" (QueryEscape rest)
      else String "%" (String (hexDigit (N_of_ascii c / 16))
                         (String (hexDigit (N_of_ascii c mod 16))
                            (QueryEscape rest)))
  end.

Definition errNoIPList (targetName : string) : error :=
  "no IP-list found with name " +:+ quoted targetName.

Definition getIPListHref (targetName : string) : M string :=
  let escapedName := QueryEscape targetName in
  let urlStr := apiBase +:+ "/orgs/" +:+ org
      +:+ "/sec_policy/draft/ip_lists?max_results=500&name=" +:+ escapedName in
  data ← apiRequestWithRetry GET urlStr None;
  lists ← lift (asIPLists data);
  match lists with
  | [] => fail (errNoIPList targetName)
  | first :: _ => mret (ipHref first)
  end.

(** ** main: loading the catalog *)

(** An [int64] (and an [int] on a 64-bit platform): the value an
    arithmetic result wraps to. *)
Definition wrap64 (z : Z) : Z := ((z + 2 ^ 63) mod 2 ^ 64 - 2 ^ 63)%Z.

Record envInfo : Type := mkEnvInfo {
  ei_env : Label;
  ei_apps : list Label;
}.

Record Flags : Type := mkFlags {
  excludeBroadcast : bool;
  excludeMulticast : bool;
  verbose : bool;
}.

(** How [main] leaves before the fan-out: [log.Fatalf] or a plain
    [return]. *)
Inductive exit : Type :=
  | Fatal (msg : string)
  | Returned.

(** What [main] holds when the fan-out starts. *)
Record Plan : Type := mkPlan {
  pl_flags : Flags;
  pl_services : list Service;
  pl_rulesetHref : string;
  pl_envInfos : list envInfo;
  pl_totalQueries : Z;
  pl_ipListHref : string;
}.

(** The loop over [envs] that fills [envInfos]: an environment whose
    workloads cannot be loaded, or that has no application, is skipped. *)
Fixpoint loadEnvInfos (envs : list Label) (w : World) : list envInfo * World :=
  match envs with
  | [] => ([], w)
  | env :: rest =>
      match getWorkloadsForEnv env w with
      | (Err _, w1) => loadEnvInfos rest w1
      | (Ok apps, w1) =>
          if decide (length apps = 0) then loadEnvInfos rest w1
          else
            let '(envInfos, w2) := loadEnvInfos rest w1 in
            (mkEnvInfo env apps :: envInfos, w2)
      end
  end.

(** [for _, ei := range envInfos { totalQueries += int64(len(services) * len(ei.apps)) }] *)
Definition countQueries (services : list Service) (envInfos : list envInfo) : Z :=
  foldl (fun totalQueries ei =>
           wrap64 (totalQueries
                   + wrap64 (Z.of_nat (length services)
                             * Z.of_nat (length (ei_apps ei)))))
        0%Z envInfos.

Definition targetIPListName : string := "Any (0.0.0.0/0 and ::/0)".

Section Main.

Variable Format : string -> Z -> string.

Definition mainSetup (flags : Flags) (w : World) : (exit + Plan) * World :=
  match getEnvs w with
  | (Err err, w1) => (inl (Fatal ("Failed to load environments: " +:+ err)), w1)
  | (Ok envs, w1) =>
  match getRansomServices w1 with
  | (Err err, w2) =>
      (inl (Fatal ("Failed to load ransomware services: " +:+ err)), w2)
  | (Ok services, w2) =>
  let friendly := Format "Jan 02, 2006 15:04:05" (clock w2) in
  let rulesetName := "Auto Deny Rules - " +:+ friendly in
  match createRuleset rulesetName w2 with
  | (Err err, w3) => (inl (Fatal ("Failed to create rule set: " +:+ err)), w3)
  | (Ok rulesetHref, w3) =>
  let '(envInfos, w4) := loadEnvInfos envs w3 in
  let totalQueries := countQueries services envInfos in
  if decide (totalQueries = 0%Z) then (inl Returned, w4) else
  match getIPListHref targetIPListName w4 with
  | (Err err, w5) =>
      (inl (Fatal ("Failed to locate IP-list " +:+ quoted targetIPListName
                   +:+ ": " +:+ err)), w5)
  | (Ok ipListHref, w5) =>
      (inr (mkPlan flags services rulesetHref envInfos totalQueries ipListHref),
       w5)
  end end end end.

(** ** main: fan-out, join and rule creation

    The goroutines make this part concurrent, so it is a transition system:
    [step] takes one action of the main goroutine or of a verification
    goroutine.  A goroutine is in [querying] while it runs
    [submitTrafficQuery], in [releasing] until its deferred [<-sem] has
    run, in [finishing] until its deferred [wg.Done()] has run.  Each
    goroutine talks to the transport in a world of its own, the one its
    verification step names.  A launch is [wg.Add(1)], the send on [sem]
    and the [go] statement in one step, taken when the send can go
    through: only [main] waits on [wg], and it is the one sending. *)

Abbreviation group := (envInfo * Service)%type.

(** The iterations of [for _, ei := range envInfos { for _, service := range services {], in order. *)
Definition groupsOf (plan : Plan) : list group :=
  ei ← pl_envInfos plan; service ← pl_services plan; [(ei, service)].

Record task : Type := mkTask {
  t_group : nat;   (* which iteration of the two outer loops launched it *)
  t_index : nat;   (* which iteration of the loop over ei.apps *)
  t_app : Label;   (* the argument a *)
}.

#[global] Instance task_eq_dec : EqDecision task.
Proof. solve_decision. Defined.

Inductive mainpc : Type :=
  | Fanout (gi : nat) (next : nat)
      (* in group gi, about to launch application next; at wg.Wait()
         once next is past the last one *)
  | Creating (rest : list denyRuleInfo)
      (* in the loop over denyRules *)
  | Finished.

Inductive oevent : Type :=
  | Launched (gi ai : nat)
  | Verified (gi ai : nat) (r : result bool)
  | Joined (gi : nat) (finding : list Label)
  | RuleRequested (dr : denyRuleInfo) (r : result unit).

Record State : Type := mkState {
  pc : mainpc;
  querying : list task;
  releasing : list task;
  finishing : list task;
  sem : nat;                      (* len(sem) *)
  wg : nat;                       (* the WaitGroup counter *)
  appsNoTraffic : list Label;
  denyRules : list denyRuleInfo;
  doneQueries : Z;
  totalQueries : Z;
  doneDenyRules : Z;
  history : list oevent;          (* most recent first *)
}.

(** [sem := make(chan struct{}, 2)] *)
Definition semCapacity : nat := 2.

Inductive action : Type :=
  | ALaunch                 (* main: wg.Add(1); sem <- struct{}{}; go func(a) *)
  | AVerify (k : nat) (w : World)
      (* the k-th querying goroutine: submitTrafficQuery returns, having run
         in w; the result is recorded and the progress counted *)
  | ARelease (k : nat)      (* deferred <-sem *)
  | AFinish (k : nat)       (* deferred wg.Done() *)
  | AJoin                   (* main: wg.Wait() returns, the finding is kept *)
  | ACreate (w : World)     (* main: createDenyRule for the next finding *)
  | AReturn.                (* main returns *)

Section Run.

Variable plan : Plan.

Definition groups : list group := groupsOf plan.

(** Where [main] stands when the loops reach iteration [gi]. *)
Definition enter (gi : nat) (rules : list denyRuleInfo) : mainpc :=
  if decide (gi < length groups) then Fanout gi 0 else Creating rules.

Definition initial : State :=
  mkState (enter 0 []) [] [] [] 0 0 [] [] 0%Z (pl_totalQueries plan) 0%Z [].

Definition step (a : action) (s : State) : option State :=
  match a, pc s with
  | ALaunch, Fanout gi next =>
      g ← groups !! gi;
      app ← ei_apps (fst g) !! next;
      if decide (sem s < semCapacity) then
        Some (mkState (Fanout gi (S next))
                (querying s ++ [mkTask gi next app]) (releasing s) (finishing s)
                (S (sem s)) (S (wg s))
                (appsNoTraffic s) (denyRules s)
                (doneQueries s) (totalQueries s) (doneDenyRules s)
                (Launched gi next :: history s))
      else None
  | AVerify k w, _ =>
      t ← querying s !! k;
      g ← groups !! t_group t;
      let r := fst (submitTrafficQuery Format
                      (Href (ei_env (fst g))) (Href (t_app t)) (snd g)
                      (excludeBroadcast (pl_flags plan))
                      (excludeMulticast (pl_flags plan)) w) in
      Some (mkState (pc s)
              (delete k (querying s)) (releasing s ++ [t]) (finishing s)
              (sem s) (wg s)
              (match r with
               | Ok true => appsNoTraffic s ++ [t_app t]
               | _ => appsNoTraffic s
               end)
              (denyRules s)
              (wrap64 (doneQueries s + 1)) (totalQueries s) (doneDenyRules s)
              (Verified (t_group t) (t_index t) r :: history s))
  | ARelease k, _ =>
      t ← releasing s !! k;
      Some (mkState (pc s)
              (querying s) (delete k (releasing s)) (finishing s ++ [t])
              (sem s - 1) (wg s)
              (appsNoTraffic s) (denyRules s)
              (doneQueries s) (totalQueries s) (doneDenyRules s)
              (history s))
  | AFinish k, _ =>
      t ← finishing s !! k;
      Some (mkState (pc s)
              (querying s) (releasing s) (delete k (finishing s))
              (sem s) (wg s - 1)
              (appsNoTraffic s) (denyRules s)
              (doneQueries s) (totalQueries s) (doneDenyRules s)
              (history s))
  | AJoin, Fanout gi next =>
      g ← groups !! gi;
      if decide (next = length (ei_apps (fst g)) ∧ wg s = 0) then
        let rules :=
          if decide (0 < length (appsNoTraffic s))
          then denyRules s ++ [mkDenyRuleInfo (ei_env (fst g)) (snd g)
                                 (appsNoTraffic s)]
          else denyRules s in
        Some (mkState (enter (S gi) rules)
                (querying s) (releasing s) (finishing s)
                (sem s) (wg s)
                [] rules
                (doneQueries s) (totalQueries s) (doneDenyRules s)
                (Joined gi (appsNoTraffic s) :: history s))
      else None
  | ACreate w, Creating (dr :: rest) =>
      let r := fst (createDenyRule (pl_rulesetHref plan)
                      (ServiceHref (dr_service dr)) (dr_apps dr) (dr_env dr)
                      (pl_ipListHref plan) w) in
      Some (mkState (Creating rest)
              (querying s) (releasing s) (finishing s)
              (sem s) (wg s)
              (appsNoTraffic s) (denyRules s)
              (doneQueries s) (totalQueries s)
              (match r with
               | Ok _ => wrap64 (doneDenyRules s + 1)
               | Err _ => doneDenyRules s
               end)
              (RuleRequested dr r :: history s))
  | AReturn, Creating [] =>
      Some (mkState Finished
              (querying s) (releasing s) (finishing s)
              (sem s) (wg s)
              (appsNoTraffic s) (denyRules s)
              (doneQueries s) (totalQueries s) (doneDenyRules s)
              (history s))
  | _, _ => None
  end.

(** A run: the actions taken, in order. *)
Fixpoint exec (acts : list action) (s : State) : option State :=
  match acts with
  | [] => Some s
  | a :: rest => s' ← step a s; exec rest s'
  end.

Definition reachable (s : State) : Prop :=
  ∃ acts, exec acts initial = Some s.

(** The verification tasks in flight. *)
Definition inFlight (s : State) : nat := length (querying s).

End Run.

End Main.

(** ** Vocabulary of the statements *)

(** The object a transport outcome decodes to, when it is an answer that
    decodes into a map. *)
Definition pollObject (r : reply) : option (gmap string GoVal) :=
  match r with
  | Answer b => match asObject b with Ok m => Some m | Err _ => None end
  | Unreachable _ => None
  end.

(** The job handle in the answer to a submission. *)
Definition jobHref (r : reply) : option string :=
  m ← pollObject r;
  href ← asString (m !! "href");
  if decide (href = "") then None else Some href.

(** [polled ns fs last ns' fs']: over the transport outcomes [ns] and the
    schedule [fs], every tick is answered by a poll that is not completed,
    until one is: [last].  [ns'] and [fs'] are left. *)
Inductive polled :
    list reply -> list chan -> gmap string GoVal ->
    list reply -> list chan -> Prop :=
  | polled_done r m ns fs :
      pollObject r = Some m -> statusOf m = "completed" ->
      polled (r :: ns) (TickerC :: fs) m ns fs
  | polled_wait r m ns fs last ns' fs' :
      pollObject r = Some m -> statusOf m ≠ "completed" ->
      polled ns fs last ns' fs' ->
      polled (r :: ns) (TickerC :: fs) last ns' fs'.

(** A query completes: the submission returns a job handle and the job is
    polled to [last], the completed answer. *)
Definition completesWith (ns : list reply) (fs : list chan)
    (last : gmap string GoVal) (ns' : list reply) (fs' : list chan) : Prop :=
  ∃ sub rest, ns = sub :: rest ∧ is_Some (jobHref sub)
              ∧ polled rest fs last ns' fs'.


(** [timesOut ns fs]: every tick is answered by a poll that is not
    completed, until the [select] takes the timer. *)
Inductive timesOut : list reply -> list chan -> Prop :=
  | timesOut_end ns : timesOut ns []
  | timesOut_fired ns fs : timesOut ns (TimeoutC :: fs)
  | timesOut_wait r m ns fs :
      pollObject r = Some m -> statusOf m ≠ "completed" ->
      timesOut ns fs ->
      timesOut (r :: ns) (TickerC :: fs).


(** What was done between [w] and [w'], oldest first. *)
Definition did (w w' : World) (evs : list event) : Prop :=
  trace w' = rev evs ++ trace w.

(** The submissions among events. *)
Definition submissions (evs : list event) : list request :=
  omap (fun e => match e with
                 | Request r =>
                     match reqMethod r with POST => Some r | GET => None end
                 | _ => None
                 end) evs.

(** The events of a polling loop: each poll follows the receipt of a tick;
    the loop ends after a poll or on the receipt of the timer. *)
Fixpoint pollingEvents (pollURL : string) (evs : list event) : Prop :=
  match evs with
  | Recv TickerC :: Request r :: rest =>
      r = mkRequest GET pollURL None ∧ (rest = [] ∨ pollingEvents pollURL rest)
  | [Recv TimeoutC] => True
  | _ => False
  end.

(** [v[k]] on a map held in an [interface{}]. *)
Definition field (k : string) (v : GoVal) : option GoVal :=
  match v with
  | VMap m => m !! k
  | _ => None
  end.

(** The application set [getWorkloadsForEnv] yields for each environment,
    the calls being made in order from [w]. *)
Fixpoint appSets (envs : list Label) (w : World)
    : list (Label * result (list Label)) :=
  match envs with
  | [] => []
  | env :: rest =>
      let '(r, w1) := getWorkloadsForEnv env w in
      (env, r) :: appSets rest w1
  end.

(** An environment with a loaded, non-empty application set. *)
Definition nonEmptySet (x : Label * result (list Label)) : option envInfo :=
  match snd x with
  | Ok (a :: apps) => Some (mkEnvInfo (fst x) (a :: apps))
  | _ => None
  end.

(** Application count times service count. *)
Definition queriesFor (services : list Service) (apps : list Label) : Z :=
  (Z.of_nat (length apps) * Z.of_nat (length services))%Z.

Definition sumZ (l : list Z) : Z := foldr Z.add 0%Z l.

(** * Proofs *)

(** ** The monad *)

Lemma bind_run {A B : Type} (m : M A) (f : A -> M B) (w : World) :
  (m ≫= f) w = match m w with
               | (Ok a, w') => f a w'
               | (Err e, w') => (Err e, w')
               end.
Proof. reflexivity. Qed.

Lemma bind_Ok {A B : Type} (m : M A) (f : A -> M B) w b w' :
  (m ≫= f) w = (Ok b, w') ->
  ∃ a w1, m w = (Ok a, w1) ∧ f a w1 = (Ok b, w').
Proof.
  rewrite bind_run. destruct (m w) as [[a|e] w1]; [eauto | discriminate].
Qed.

Lemma apiRequestWithRetry_Ok m u p w b w' :
  apiRequestWithRetry m u p w = (Ok b, w') ->
  ∃ ns, net w = Answer b :: ns ∧
        w' = mkWorld (clock w) ns (fires w)
               (Request (mkRequest m u p) :: trace w).
Proof.
  unfold apiRequestWithRetry. destruct (net w) as [|[e|b'] ns]; simpl;
    intros H; inversion H; subst; eauto.
Qed.

Lemma apiRequestWithRetry_world m u p w :
  snd (apiRequestWithRetry m u p w)
  = mkWorld (clock w) (tail (net w)) (fires w)
      (Request (mkRequest m u p) :: trace w).
Proof.
  unfold apiRequestWithRetry. destruct (net w) as [|[e|b'] ns]; reflexivity.
Qed.

Lemma apiRequestWithRetry_answer m u p w b ns :
  net w = Answer b :: ns ->
  apiRequestWithRetry m u p w
  = (Ok b, mkWorld (clock w) ns (fires w)
             (Request (mkRequest m u p) :: trace w)).
Proof. unfold apiRequestWithRetry. intros ->. reflexivity. Qed.

Lemma pollObject_Some r m :
  pollObject r = Some m -> ∃ b, r = Answer b ∧ asObject b = Ok m.
Proof.
  destruct r as [e|b]; simpl; [discriminate|].
  destruct (asObject b) eqn:E; [|discriminate].
  intros [= ->]. eauto.
Qed.

(** ** The polling loop *)

Definition pollURL (href : string) : string :=
  "https://" +:+ fqdn +:+ ":" +:+ port +:+ "/api/v2" +:+ href.

(** One turn of the loop on a tick, answered by an object. *)
Lemma pollLoop_tick href fs w b ns m :
  net w = Answer b :: ns -> asObject b = Ok m ->
  pollLoop href (TickerC :: fs) w
  = let w1 := mkWorld (clock w) ns fs
                (Request (mkRequest GET (pollURL href) None)
                   :: Recv TickerC :: trace w) in
    if decide (statusOf m = "completed")
    then (Ok (gt0 (flowsCountOf m)), w1)
    else pollLoop href fs w1.
Proof.
  intros Hn Hb. cbn [pollLoop]. rewrite bind_run. cbn [recv].
  rewrite bind_run.
  erewrite apiRequestWithRetry_answer by (simpl; exact Hn).
  rewrite bind_run. unfold lift. rewrite Hb. cbn zeta.
  destruct (decide (statusOf m = "completed")); reflexivity.
Qed.


Lemma pollLoop_complete href ns fs last ns' fs' :
  polled ns fs last ns' fs' ->
  ∀ w, net w = ns ->
  ∃ w', pollLoop href fs w = (Ok (gt0 (flowsCountOf last)), w')
        ∧ net w' = ns' ∧ fires w' = fs' ∧ clock w' = clock w.
Proof.
  induction 1 as [r m ns fs Hp Hs | r m ns fs last ns' fs' Hp Hs _ IH];
    intros w Hn; apply pollObject_Some in Hp as (b & -> & Hb).
  - rewrite (pollLoop_tick _ _ _ _ _ _ Hn Hb). cbn zeta.
    rewrite decide_True by done. eauto.
  - rewrite (pollLoop_tick _ _ _ _ _ _ Hn Hb). cbn zeta.
    rewrite decide_False by done.
    destruct (IH (mkWorld (clock w) ns fs
                    (Request (mkRequest GET (pollURL href) None)
                       :: Recv TickerC :: trace w)) eq_refl)
      as (w' & -> & ? & ? & ?). eauto.
Qed.

Lemma pollLoop_timesOut href ns fs :
  timesOut ns fs ->
  ∀ w, net w = ns -> fst (pollLoop href fs w) = Err errTimeout.
Proof.
  induction 1 as [ns | ns fs | r m ns fs Hp Hs _ IH]; intros w Hn;
    [reflexivity | reflexivity |].
  apply pollObject_Some in Hp as (b & -> & Hb).
  rewrite (pollLoop_tick _ _ _ _ _ _ Hn Hb). cbn zeta.
  rewrite decide_False by done. now apply IH.
Qed.

(** What the loop does: polls on ticks only. *)
Lemma pollLoop_events href fs : ∀ w,
  ∃ evs, did w (snd (pollLoop href fs w)) evs
         ∧ pollingEvents (pollURL href) evs.
Proof.
  induction fs as [|c fs IH]; intros w.
  - exists [Recv TimeoutC]. split; [reflexivity | exact I].
  - destruct c.
    + exists [Recv TimeoutC]. split; [reflexivity | exact I].
    + cbn [pollLoop]. rewrite bind_run. cbn [recv]. rewrite bind_run.
      destruct (apiRequestWithRetry _ _ _ _) as [[body|e] w1] eqn:E.
      * pose proof (apiRequestWithRetry_world GET (pollURL href) None
          (mkWorld (clock w) (net w) fs (Recv TickerC :: trace w))) as Hw.
        unfold pollURL in Hw. rewrite E in Hw. simpl in Hw. subst w1.
        rewrite bind_run. unfold lift.
        destruct (asObject body) as [m|e].
        -- cbn zeta. destruct (decide (statusOf m = "completed")).
           ++ exists [Recv TickerC; Request (mkRequest GET (pollURL href) None)].
              split; [reflexivity | simpl; auto].
           ++ destruct (IH (mkWorld (clock w) (tail (net w)) fs
                          (Request (mkRequest GET (pollURL href) None)
                             :: Recv TickerC :: trace w))) as (evs & Hd & Hp).
              exists (Recv TickerC :: Request (mkRequest GET (pollURL href) None)
                        :: evs).
              split.
              ** unfold did in *. unfold pollURL in *. rewrite Hd. simpl.
                 rewrite <- !app_assoc. reflexivity.
              ** simpl. auto.
        -- exists [Recv TickerC; Request (mkRequest GET (pollURL href) None)].
           split; [reflexivity | simpl; auto].
      * pose proof (apiRequestWithRetry_world GET (pollURL href) None
          (mkWorld (clock w) (net w) fs (Recv TickerC :: trace w))) as Hw.
        unfold pollURL in Hw. rewrite E in Hw. simpl in Hw. subst w1.
        exists [Recv TickerC; Request (mkRequest GET (pollURL href) None)].
        split; [reflexivity | simpl; auto].
Qed.

(** ** One asynchronous query *)

Lemma jobHref_Some sub href :
  jobHref sub = Some href ->
  ∃ b m, sub = Answer b ∧ asObject b = Ok m
         ∧ asString (m !! "href") = Some href ∧ href ≠ "".
Proof.
  unfold jobHref. intros H.
  destruct (pollObject sub) as [m|] eqn:Hp; [|discriminate].
  apply pollObject_Some in Hp as (b & -> & Hb). simpl in H.
  destruct (asString (m !! "href")) as [h|] eqn:Hh; [|discriminate].
  simpl in H. destruct (decide (h = "")); [discriminate|].
  injection H as <-. eauto 10.
Qed.

(** The submission returned a job handle: the timers are set and the loop
    runs; [ticker.Stop()] runs when it returns. *)
Lemma runSingleAsyncQuery_submitted url p w sub rest href :
  net w = sub :: rest -> jobHref sub = Some href ->
  runSingleAsyncQuery url p w
  = let w1 := mkWorld (clock w) rest (fires w)
                (NewTicker (5 * Second) :: After (5 * Minute)
                   :: Request (mkRequest POST url (Some p)) :: trace w) in
    let '(r, w') := pollLoop href (fires w) w1 in
    (r, mkWorld (clock w') (net w') (fires w') (Stop :: trace w')).
Proof.
  intros Hn Hj. apply jobHref_Some in Hj as (b & m & -> & Hb & Hh & Hne).
  unfold runSingleAsyncQuery. rewrite bind_run.
  erewrite apiRequestWithRetry_answer by exact Hn.
  rewrite bind_run. unfold lift. rewrite Hb, Hh.
  rewrite decide_False by done. reflexivity.
Qed.

(** The submission returned no job handle: nothing else is done. *)
Lemma runSingleAsyncQuery_rejected url p w :
  (hd_error (net w) ≫= jobHref) = None ->
  ∃ e, runSingleAsyncQuery url p w
       = (Err e, mkWorld (clock w) (tail (net w)) (fires w)
                   (Request (mkRequest POST url (Some p)) :: trace w)).
Proof.
  intros Hj. unfold runSingleAsyncQuery. rewrite bind_run.
  pose proof (apiRequestWithRetry_world POST url (Some p) w) as Hw.
  destruct (apiRequestWithRetry POST url (Some p) w) as [[b|e] w1] eqn:E;
    simpl in Hw; subst w1; [|eauto].
  apply apiRequestWithRetry_Ok in E as (ns & Hn & _).
  rewrite Hn in Hj. simpl in Hj. unfold jobHref in Hj. simpl in Hj.
  rewrite bind_run. unfold lift.
  destruct (asObject b) as [m|e]; [|eauto]. simpl in Hj.
  destruct (asString (m !! "href")) as [h|]; [|unfold fail; eauto].
  simpl in Hj. destruct (decide (h = "")); [unfold fail; eauto | discriminate].
Qed.


Lemma runSingleAsyncQuery_complete url p w last ns' fs' :
  completesWith (net w) (fires w) last ns' fs' ->
  ∃ w', runSingleAsyncQuery url p w = (Ok (gt0 (flowsCountOf last)), w')
        ∧ net w' = ns' ∧ fires w' = fs' ∧ clock w' = clock w.
Proof.
  intros (sub & rest & Hn & [href Hj] & Hp).
  rewrite (runSingleAsyncQuery_submitted _ _ _ _ _ _ Hn Hj). cbn zeta.
  edestruct (pollLoop_complete href _ _ _ _ _ Hp) as (w' & -> & ? & ? & ?);
    [reflexivity|].
  eexists. split; [reflexivity|]. simpl in *. done.
Qed.

Lemma runSingleAsyncQuery_timesOut url p w sub rest :
  net w = sub :: rest -> is_Some (jobHref sub) -> timesOut rest (fires w) ->
  fst (runSingleAsyncQuery url p w) = Err errTimeout.
Proof.
  intros Hn [href Hj] Ht.
  rewrite (runSingleAsyncQuery_submitted _ _ _ _ _ _ Hn Hj). cbn zeta.
  pose proof (pollLoop_timesOut href _ _ Ht
    (mkWorld (clock w) rest (fires w)
       (NewTicker (5 * Second) :: After (5 * Minute)
          :: Request (mkRequest POST url (Some p)) :: trace w)) eq_refl) as H.
  destruct (pollLoop _ _ _) as [r w']. simpl in *. now subst.
Qed.

(** What one query does: one submission; when a job handle came back, a
    5-minute timer, a 5-second ticker, polls on ticks only, and the ticker
    is stopped. *)
Lemma runSingleAsyncQuery_events url p w :
  ∃ evs, did w (snd (runSingleAsyncQuery url p w)) evs ∧
    (evs = [Request (mkRequest POST url (Some p))] ∨
     ∃ href polls,
       evs = Request (mkRequest POST url (Some p))
               :: After (5 * Minute) :: NewTicker (5 * Second)
               :: polls ++ [Stop]
       ∧ pollingEvents (pollURL href) polls).
Proof.
  destruct (hd_error (net w) ≫= jobHref) as [href|] eqn:Hj.
  - destruct (net w) as [|sub rest] eqn:Hn; [discriminate|]. simpl in Hj.
    rewrite (runSingleAsyncQuery_submitted _ _ _ _ _ _ Hn Hj). cbn zeta.
    destruct (pollLoop_events href (fires w)
      (mkWorld (clock w) rest (fires w)
         (NewTicker (5 * Second) :: After (5 * Minute)
            :: Request (mkRequest POST url (Some p)) :: trace w)))
      as (polls & Hd & Hp).
    destruct (pollLoop _ _ _) as [r w']. unfold did in *. simpl in *.
    eexists. split; [|right; exists href, polls; split; [reflexivity|done]].
    rewrite Hd. simpl. rewrite !rev_app_distr. simpl.
    rewrite <- !app_assoc. reflexivity.
  - apply (runSingleAsyncQuery_rejected url p) in Hj as (e & ->).
    exists [Request (mkRequest POST url (Some p))]. split; [reflexivity|auto].
Qed.

(** ** The service filter of the payload *)

Lemma elems_foldl_goAppend {A : Type} (f : A -> GoVal) (l : list A) :
  ∀ init, init = VNilSlice ∨ (∃ l0, init = VSlice l0) ->
  elems (foldl (fun s x => goAppend s (f x)) init l) = elems init ++ map f l.
Proof.
  induction l as [|x l IH]; intros init Hinit; simpl.
  - now rewrite app_nil_r.
  - rewrite IH.
    + destruct Hinit as [-> | [l0 ->]]; simpl; [done|].
      now rewrite <- app_assoc.
    + right. destruct Hinit as [-> | [l0 ->]]; simpl; eauto.
Qed.

Lemma elems_buildPorts service :
  elems (buildPorts service)
  = map (fun sp => VMap (portEntry sp)) (ServicePorts service).
Proof. unfold buildPorts. rewrite elems_foldl_goAppend; auto. Qed.

Lemma portEntry_no_range sp :
  ToPort sp = 0%Z ->
  portEntry sp = <["proto" := VInt (Proto sp)]> {["port" := VInt (Port sp)]}.
Proof. intros H. unfold portEntry. now rewrite decide_False by tauto. Qed.

Lemma portEntry_range sp :
  ToPort sp ≠ 0%Z ->
  portEntry sp = <["to_port" := VInt (ToPort sp)]>
                   (<["proto" := VInt (Proto sp)]> {["port" := VInt (Port sp)]}).
Proof. intros H. unfold portEntry. now rewrite decide_True. Qed.

(** C9. In the payload of a query the service filter's include list has one
    entry per configured port, in order: none at all for a service without
    ports (the list is then empty, the nil slice); an entry carries the
    port and the protocol, and its to_port only when that is not zero: for
    a zero to_port the entry has no to_port key. *)
Theorem service_filter_entries envHref appHref service xb xm start end_ :
  let payload := queryPayload envHref appHref service xb xm start end_ in
  (field "services" payload ≫= field "include") = Some (buildPorts service)
  ∧ elems (buildPorts service)
    = map (fun sp => VMap (portEntry sp)) (ServicePorts service)
  ∧ (ServicePorts service = [] ->
     buildPorts service = VNilSlice ∧ elems (buildPorts service) = [])
  ∧ (∀ sp, ToPort sp = 0%Z ->
       portEntry sp !! "to_port" = None
       ∧ portEntry sp !! "port" = Some (VInt (Port sp))
       ∧ portEntry sp !! "proto" = Some (VInt (Proto sp)))
  ∧ (∀ sp, ToPort sp ≠ 0%Z ->
       portEntry sp !! "to_port" = Some (VInt (ToPort sp))).
Proof.
  cbn zeta. split; [vm_compute; reflexivity|].
  split; [apply elems_buildPorts|].
  split; [intros H; unfold buildPorts; rewrite H; done|].
  split.
  - intros sp H. rewrite (portEntry_no_range sp H).
    repeat split; vm_compute; reflexivity.
  - intros sp H. rewrite (portEntry_range sp H). vm_compute; reflexivity.
Qed.

(** ** The two-window check *)





(** The completed answer is one of the outcomes, and what is left is a
    suffix of them. *)
Lemma polled_last ns fs last ns' fs' :
  polled ns fs last ns' fs' ->
  (∃ r, r ∈ ns ∧ pollObject r = Some last) ∧ ns' `suffix_of` ns.
Proof.
  induction 1 as [r m ns fs Hp Hs | r m ns fs last ns' fs' Hp Hs _ IH].
  - split; [exists r; split; [left|done] | by apply suffix_cons_r].
  - destruct IH as [(r' & Hin & Hr') Hsuf].
    split; [exists r'; split; [by right|done] | by apply suffix_cons_r].
Qed.

Lemma completesWith_last ns fs last ns' fs' :
  completesWith ns fs last ns' fs' ->
  (∃ r, r ∈ ns ∧ pollObject r = Some last) ∧ ns' `suffix_of` ns.
Proof.
  intros (sub & rest & -> & _ & Hp).
  apply polled_last in Hp as [(r & Hin & Hr) Hsuf].
  split; [exists r; split; [by right|done] | by apply suffix_cons_r].
Qed.

(** The job and what it leaves are determined by the outcomes and the
    schedule. *)
Lemma polled_functional ns fs last ns' fs' :
  polled ns fs last ns' fs' ->
  ∀ last2 ns2 fs2, polled ns fs last2 ns2 fs2 ->
  last2 = last ∧ ns2 = ns' ∧ fs2 = fs'.
Proof.
  induction 1 as [r m ns fs Hp Hs | r m ns fs last ns' fs' Hp Hs _ IH];
    intros last2 ns2 fs2 H2; inversion H2; subst; try congruence.
  - split; [congruence | done].
  - apply IH. done.
Qed.

Lemma completesWith_functional ns fs last ns' fs' last2 ns2 fs2 :
  completesWith ns fs last ns' fs' -> completesWith ns fs last2 ns2 fs2 ->
  last2 = last ∧ ns2 = ns' ∧ fs2 = fs'.
Proof.
  intros (sub & rest & -> & _ & Hp) (sub2 & rest2 & [= <- <-] & _ & Hp2).
  eapply polled_functional; eauto.
Qed.

(** A polling loop submits nothing. *)
Lemma submissions_polling url polls :
  pollingEvents url polls -> submissions (polls ++ [Stop]) = [].
Proof.
  remember (length polls) as n eqn:Hn. revert polls Hn.
  induction n as [n IH] using lt_wf_ind. intros polls Hn Hp.
  destruct polls as [|e1 polls]; [destruct Hp|].
  destruct e1 as [r| | |c|]; try (simpl in Hp; tauto).
  destruct c.
  - destruct polls; [reflexivity | simpl in Hp; tauto].
  - destruct polls as [|e2 polls]; [simpl in Hp; tauto|].
    destruct e2 as [r| | |c|]; try (simpl in Hp; tauto).
    simpl in Hp. destruct Hp as [-> [-> | Hp]]; [reflexivity|].
    simpl. eapply (IH (length polls)); [simpl in Hn; lia | reflexivity | done].
Qed.

Section VerifierProofs.

Variable Format : string -> Z -> string.

(** The payloads of the two windows, for a call made at [now]. *)
Definition payload24h envHref appHref service xb xm (now : Z) : GoVal :=
  queryPayload envHref appHref service xb xm
    (Format RFC3339 (now + (-24) * Hour)) (Format RFC3339 now).

Definition payload89d envHref appHref service xb xm (now : Z) : GoVal :=
  queryPayload envHref appHref service xb xm
    (Format RFC3339 (now + (-89) * 24 * Hour)) (Format RFC3339 now).

Lemma submitTrafficQuery_run e a svc xb xm w :
  submitTrafficQuery Format e a svc xb xm w
  = match runSingleAsyncQuery queryURL (payload24h e a svc xb xm (clock w)) w with
    | (Ok true, w1) => (Ok false, w1)
    | (Ok false, w1) =>
        match runSingleAsyncQuery queryURL
                (payload89d e a svc xb xm (clock w)) w1 with
        | (Ok true, w2) => (Ok false, w2)
        | (Ok false, w2) => (Ok true, w2)
        | (Err err, w2) => (Err err, w2)
        end
    | (Err err, w1) => (Err err, w1)
    end.
Proof.
  unfold submitTrafficQuery. rewrite bind_run. cbn [timeNow]. cbn zeta.
  rewrite bind_run. unfold payload24h, payload89d.
  destruct (runSingleAsyncQuery _ _ w) as [[[|]|err] w1]; try reflexivity.
  rewrite bind_run.
  destruct (runSingleAsyncQuery _ _ w1) as [[[|]|err] w2]; reflexivity.
Qed.




End VerifierProofs.

(** ** The orchestrator: what a run keeps true *)

Section OrchestratorProofs.

Variable Format : string -> Z -> string.
Variable plan : Plan.

#[local] Arguments groups : simpl never.

(** The applications of group [gi]; none when there is no such group. *)
Definition appsAt (gi : nat) : list Label :=
  match groups plan !! gi with
  | Some g => ei_apps (fst g)
  | None => []
  end.

(** The group [main] is in and the next application to launch there; past
    the last group once the loops are over. *)
Definition cursor (s : State) : nat * nat :=
  match pc s with
  | Fanout gi next => (gi, next)
  | _ => (length (groups plan), 0)
  end.

(** What must have happened before an event.  A join of group [gi] with
    finding [f]: every application of the group has a verification
    outcome, and every application of [f] has the outcome (true, nil).  A
    deny-rule request: every group has been joined, and the rule is the
    finding of one of these joins. *)
Definition barrier (e : oevent) (earlier : list oevent) : Prop :=
  match e with
  | Joined gi f =>
      (∀ ai, ai < length (appsAt gi) -> ∃ r, Verified gi ai r ∈ earlier)
      ∧ (∀ a, a ∈ f ->
           ∃ ai, appsAt gi !! ai = Some a
                 ∧ Verified gi ai (Ok true) ∈ earlier)
  | RuleRequested dr _ =>
      (∀ gi, gi < length (groups plan) -> ∃ f, Joined gi f ∈ earlier)
      ∧ (∃ gi g f, groups plan !! gi = Some g ∧ Joined gi f ∈ earlier
                   ∧ dr = mkDenyRuleInfo (ei_env (fst g)) (snd g) f)
  | _ => True
  end.

Fixpoint ordered (h : list oevent) : Prop :=
  match h with
  | [] => True
  | e :: earlier => barrier e earlier ∧ ordered earlier
  end.

Record Inv (s : State) : Prop := mkInv {
  inv_pos : (cursor s).2 ≤ length (appsAt (cursor s).1)
            ∧ (cursor s).1 ≤ length (groups plan);
  inv_sem : sem s = length (querying s) + length (releasing s);
  inv_cap : sem s ≤ semCapacity;
  inv_wg : wg s = length (querying s) + length (releasing s)
                  + length (finishing s);
  inv_tasks : ∀ t, t ∈ querying s ->
      t_group t = (cursor s).1 ∧ t_index t < (cursor s).2
      ∧ appsAt (t_group t) !! t_index t = Some (t_app t)
      ∧ ∀ r, Verified (t_group t) (t_index t) r ∉ history s;
  inv_nodup : NoDup (t_index <$> querying s);
  inv_cover : ∀ ai, ai < (cursor s).2 ->
      (∃ r, Verified (cursor s).1 ai r ∈ history s)
      ∨ (∃ t, t ∈ querying s ∧ t_index t = ai);
  inv_ver : ∀ gi ai r, Verified gi ai r ∈ history s ->
      gi < (cursor s).1 ∨ (gi = (cursor s).1 ∧ ai < (cursor s).2);
  inv_uniq : ∀ gi ai r r',
      Verified gi ai r ∈ history s -> Verified gi ai r' ∈ history s -> r = r';
  inv_acc : ∀ a, a ∈ appsNoTraffic s ->
      ∃ ai, appsAt (cursor s).1 !! ai = Some a
            ∧ Verified (cursor s).1 ai (Ok true) ∈ history s;
  inv_joined : ∀ gi, (∃ f, Joined gi f ∈ history s) ↔ gi < (cursor s).1;
  inv_ordered : ordered (history s);
  inv_rules : ∀ dr, dr ∈ denyRules s ->
      ∃ gi g f, groups plan !! gi = Some g ∧ Joined gi f ∈ history s
                ∧ dr = mkDenyRuleInfo (ei_env (fst g)) (snd g) f;
  inv_create : match pc s with
               | Creating rest => rest `suffix_of` denyRules s
               | _ => True
               end;
  inv_total : totalQueries s = pl_totalQueries plan;
  inv_launched : ∀ gi ai, Launched gi ai ∈ history s ->
      ai < length (appsAt gi);
  inv_group : match pc s with
              | Fanout gi _ => gi < length (groups plan)
              | _ => True
              end;
}.

(** *** What each action needs and does *)

Lemma step_ALaunch s s' :
  step Format plan ALaunch s = Some s' ->
  ∃ gi next g app,
    pc s = Fanout gi next ∧ groups plan !! gi = Some g
    ∧ ei_apps (fst g) !! next = Some app ∧ sem s < semCapacity
    ∧ s' = mkState (Fanout gi (S next))
             (querying s ++ [mkTask gi next app]) (releasing s) (finishing s)
             (S (sem s)) (S (wg s)) (appsNoTraffic s) (denyRules s)
             (doneQueries s) (totalQueries s) (doneDenyRules s)
             (Launched gi next :: history s).
Proof.
  unfold step. destruct (pc s) as [gi next|rest|] eqn:?; try discriminate.
  destruct (groups plan !! gi) as [g|] eqn:?; [|discriminate]. simpl.
  destruct (ei_apps g.1 !! next) as [app|] eqn:?; [|discriminate]. simpl.
  destruct (decide (sem s < semCapacity)); [|discriminate].
  intros [= <-]. repeat eexists; eauto.
Qed.

Lemma step_AVerify k w s s' :
  step Format plan (AVerify k w) s = Some s' ->
  ∃ t g r,
    querying s !! k = Some t ∧ groups plan !! t_group t = Some g
    ∧ r = fst (submitTrafficQuery Format (Href (ei_env (fst g)))
                 (Href (t_app t)) (snd g)
                 (excludeBroadcast (pl_flags plan))
                 (excludeMulticast (pl_flags plan)) w)
    ∧ s' = mkState (pc s)
             (delete k (querying s)) (releasing s ++ [t]) (finishing s)
             (sem s) (wg s)
             (match r with
              | Ok true => appsNoTraffic s ++ [t_app t]
              | _ => appsNoTraffic s
              end)
             (denyRules s)
             (wrap64 (doneQueries s + 1)) (totalQueries s) (doneDenyRules s)
             (Verified (t_group t) (t_index t) r :: history s).
Proof.
  intros H. remember (pc s) as p eqn:Hp.
  assert (step Format plan (AVerify k w) s = (t ← querying s !! k;
     g ← groups plan !! t_group t;
     let r := fst (submitTrafficQuery Format (Href (ei_env (fst g)))
                     (Href (t_app t)) (snd g)
                     (excludeBroadcast (pl_flags plan))
                     (excludeMulticast (pl_flags plan)) w) in
     Some (mkState p
             (delete k (querying s)) (releasing s ++ [t]) (finishing s)
             (sem s) (wg s)
             (match r with
              | Ok true => appsNoTraffic s ++ [t_app t]
              | _ => appsNoTraffic s
              end)
             (denyRules s)
             (wrap64 (doneQueries s + 1)) (totalQueries s) (doneDenyRules s)
             (Verified (t_group t) (t_index t) r :: history s)))) as E
    by (unfold step; destruct (pc s); subst p; reflexivity).
  rewrite E in H. clear E. revert H.
  destruct (querying s !! k) as [t|] eqn:?; [|discriminate]. simpl.
  destruct (groups plan !! t_group t) as [g|] eqn:?; [|discriminate]. simpl.
  intros [= <-]. repeat eexists; eauto.
Qed.

Lemma step_ARelease k s s' :
  step Format plan (ARelease k) s = Some s' ->
  ∃ t, releasing s !! k = Some t
    ∧ s' = mkState (pc s)
             (querying s) (delete k (releasing s)) (finishing s ++ [t])
             (sem s - 1) (wg s) (appsNoTraffic s) (denyRules s)
             (doneQueries s) (totalQueries s) (doneDenyRules s) (history s).
Proof.
  intros H. remember (pc s) as p eqn:Hp.
  assert (step Format plan (ARelease k) s = (t ← releasing s !! k;
     Some (mkState p
             (querying s) (delete k (releasing s)) (finishing s ++ [t])
             (sem s - 1) (wg s) (appsNoTraffic s) (denyRules s)
             (doneQueries s) (totalQueries s) (doneDenyRules s) (history s)))) as E
    by (unfold step; destruct (pc s); subst p; reflexivity).
  rewrite E in H. clear E. revert H.
  destruct (releasing s !! k) as [t|] eqn:?; [|discriminate]. simpl.
  intros [= <-]. repeat eexists; eauto.
Qed.

Lemma step_AFinish k s s' :
  step Format plan (AFinish k) s = Some s' ->
  ∃ t, finishing s !! k = Some t
    ∧ s' = mkState (pc s)
             (querying s) (releasing s) (delete k (finishing s))
             (sem s) (wg s - 1) (appsNoTraffic s) (denyRules s)
             (doneQueries s) (totalQueries s) (doneDenyRules s) (history s).
Proof.
  intros H. remember (pc s) as p eqn:Hp.
  assert (step Format plan (AFinish k) s = (t ← finishing s !! k;
     Some (mkState p
             (querying s) (releasing s) (delete k (finishing s))
             (sem s) (wg s - 1) (appsNoTraffic s) (denyRules s)
             (doneQueries s) (totalQueries s) (doneDenyRules s) (history s)))) as E
    by (unfold step; destruct (pc s); subst p; reflexivity).
  rewrite E in H. clear E. revert H.
  destruct (finishing s !! k) as [t|] eqn:?; [|discriminate]. simpl.
  intros [= <-]. repeat eexists; eauto.
Qed.

Lemma step_AJoin s s' :
  step Format plan AJoin s = Some s' ->
  ∃ gi next g rules,
    pc s = Fanout gi next ∧ groups plan !! gi = Some g
    ∧ next = length (ei_apps (fst g)) ∧ wg s = 0
    ∧ rules = (if decide (0 < length (appsNoTraffic s))
               then denyRules s ++ [mkDenyRuleInfo (ei_env (fst g)) (snd g)
                                      (appsNoTraffic s)]
               else denyRules s)
    ∧ s' = mkState (enter plan (S gi) rules)
             (querying s) (releasing s) (finishing s)
             (sem s) (wg s) [] rules
             (doneQueries s) (totalQueries s) (doneDenyRules s)
             (Joined gi (appsNoTraffic s) :: history s).
Proof.
  unfold step. destruct (pc s) as [gi next|rest|] eqn:?; try discriminate.
  destruct (groups plan !! gi) as [g|] eqn:?; [|discriminate]. simpl.
  destruct (decide _) as [[-> Hw]|]; [|discriminate].
  intros [= <-]. repeat eexists; eauto.
Qed.

Lemma step_ACreate w s s' :
  step Format plan (ACreate w) s = Some s' ->
  ∃ dr rest r,
    pc s = Creating (dr :: rest)
    ∧ r = fst (createDenyRule (pl_rulesetHref plan)
                 (ServiceHref (dr_service dr)) (dr_apps dr) (dr_env dr)
                 (pl_ipListHref plan) w)
    ∧ s' = mkState (Creating rest)
             (querying s) (releasing s) (finishing s)
             (sem s) (wg s) (appsNoTraffic s) (denyRules s)
             (doneQueries s) (totalQueries s)
             (match r with
              | Ok _ => wrap64 (doneDenyRules s + 1)
              | Err _ => doneDenyRules s
              end)
             (RuleRequested dr r :: history s).
Proof.
  unfold step. destruct (pc s) as [gi next|[|dr rest]|] eqn:?; try discriminate.
  intros [= <-]. repeat eexists; eauto.
Qed.

Lemma step_AReturn s s' :
  step Format plan AReturn s = Some s' ->
  pc s = Creating []
  ∧ s' = mkState Finished
           (querying s) (releasing s) (finishing s)
           (sem s) (wg s) (appsNoTraffic s) (denyRules s)
           (doneQueries s) (totalQueries s) (doneDenyRules s) (history s).
Proof.
  unfold step. destruct (pc s) as [gi next|[|dr rest]|] eqn:?; try discriminate.
  intros [= <-]. repeat eexists; eauto.
Qed.

(** *** The invariant holds along every run *)

Lemma appsAt_lookup gi g :
  groups plan !! gi = Some g -> appsAt gi = ei_apps (fst g).
Proof. unfold appsAt. now intros ->. Qed.

Lemma appsAt_lt gi ai :
  ai < length (appsAt gi) -> gi < length (groups plan).
Proof.
  unfold appsAt. destruct (groups plan !! gi) as [g|] eqn:E.
  - intros _. apply lookup_lt_is_Some. eauto.
  - simpl. lia.
Qed.

Lemma appsAt_past gi :
  length (groups plan) ≤ gi -> appsAt gi = [].
Proof.
  intros H. unfold appsAt. now rewrite lookup_ge_None_2.
Qed.

Lemma enter_cursor gi rules :
  gi ≤ length (groups plan) ->
  match enter plan gi rules with
  | Fanout g n => (g, n)
  | _ => (length (groups plan), 0)
  end = (gi, 0).
Proof.
  intros H. unfold enter. case_decide; [done|].
  f_equal. lia.
Qed.

Lemma lookup_delete_split {A : Type} (l : list A) k x :
  l !! k = Some x -> ∃ l1 l2, l = l1 ++ x :: l2 ∧ delete k l = l1 ++ l2.
Proof.
  intros H. exists (take k l), (drop (S k) l). split.
  - symmetry. now apply take_drop_middle.
  - apply delete_take_drop.
Qed.

Lemma Inv_initial : Inv (initial plan).
Proof.
  assert (cursor (initial plan) = (0, 0)) as Hc.
  { unfold cursor, initial. simpl. apply enter_cursor. lia. }
  constructor; rewrite ?Hc; simpl.
  - lia.
  - done.
  - lia.
  - done.
  - intros t Ht. inversion Ht.
  - constructor.
  - intros ai Hai. lia.
  - intros gi ai r H. inversion H.
  - intros gi ai r r' H. inversion H.
  - intros a H. inversion H.
  - intros gi. split; [intros [f H]; inversion H | lia].
  - done.
  - intros dr H. inversion H.
  - unfold enter. case_decide; done.
  - done.
  - intros gi ai H. inversion H.
  - unfold enter. case_decide; done.
Qed.

Lemma Inv_ALaunch s s' :
  Inv s -> step Format plan ALaunch s = Some s' -> Inv s'.
Proof.
  intros HI Hs.
  apply step_ALaunch in Hs as (gi & next & g & app & Hpc & Hg & Happ & Hsem & ->).
  assert (cursor s = (gi, next)) as Hc by (unfold cursor; now rewrite Hpc).
  destruct HI as [Ipos Isem Icap Iwg Itasks Inodup Icover Iver Iuniq Iacc
                  Ijoined Iordered Irules Icreate Itotal Ilaunched Igroup].
  rewrite Hc in *. simpl in *.
  pose proof (appsAt_lookup _ _ Hg) as Hat.
  pose proof (lookup_lt_Some _ _ _ Happ) as Hlt.
  constructor; unfold cursor; simpl.
  - rewrite Hat. lia.
  - rewrite length_app. simpl. lia.
  - unfold semCapacity in *. lia.
  - rewrite length_app. simpl. lia.
  - intros t [Ht | ->%list_elem_of_singleton]%elem_of_app.
    + destruct (Itasks t Ht) as (Hg1 & Hi1 & Ha1 & Hno).
      repeat split; try done; [lia|].
      intros r [H|H]%elem_of_cons; [discriminate | exact (Hno _ H)].
    + simpl. repeat split; try lia; [by rewrite Hat|].
      intros r [H|H]%elem_of_cons; [discriminate|].
      apply Iver in H. lia.
  - rewrite fmap_app. apply NoDup_app. split; [done|]. split.
    + intros i (t & -> & Ht)%list_elem_of_fmap.
      simpl. rewrite list_elem_of_singleton.
      destruct (Itasks t Ht) as (_ & ? & _). lia.
    + simpl. apply NoDup_singleton.
  - intros ai Hai. destruct (decide (ai = next)) as [->|Hne].
    + right. exists (mkTask gi next app). split; [|done].
      apply elem_of_app. right. by apply list_elem_of_singleton.
    + destruct (Icover ai ltac:(lia)) as [[r Hr] | (t & Ht & Hi)].
      * left. exists r. by right.
      * right. exists t. split; [|done]. apply elem_of_app. by left.
  - intros gi' ai r [H|H]%elem_of_cons; [discriminate|].
    apply Iver in H. lia.
  - intros gi' ai r r' [H|H]%elem_of_cons [H'|H']%elem_of_cons;
      try discriminate. by eapply Iuniq.
  - intros a Ha. destruct (Iacc a Ha) as (ai & Ha1 & Ha2).
    exists ai. split; [done | by right].
  - intros gi'. rewrite <- Ijoined. split; intros [f H]; exists f.
    + apply elem_of_cons in H as [H|H]; [discriminate | done].
    + by right.
  - done.
  - intros dr Hdr. destruct (Irules dr Hdr) as (gi' & g' & f & Hr1 & Hr2 & Hr3).
    exists gi', g', f. repeat split; try done. by right.
  - done.
  - done.
  - intros gi' ai [[= -> ->]|H]%elem_of_cons; [by rewrite Hat | by apply Ilaunched].
  - eapply lookup_lt_Some. exact Hg.
Qed.

Lemma Inv_ARelease k s s' :
  Inv s -> step Format plan (ARelease k) s = Some s' -> Inv s'.
Proof.
  intros HI Hs. apply step_ARelease in Hs as (t & Ht & ->).
  destruct HI as [Ipos Isem Icap Iwg Itasks Inodup Icover Iver Iuniq Iacc
                  Ijoined Iordered Irules Icreate Itotal Ilaunched Igroup].
  pose proof (lookup_lt_Some _ _ _ Ht) as Hlt.
  constructor; unfold cursor in *; simpl; try assumption.
  - rewrite length_delete by eauto. lia.
  - lia.
  - rewrite length_delete by eauto. rewrite length_app. simpl. lia.
Qed.

Lemma Inv_AFinish k s s' :
  Inv s -> step Format plan (AFinish k) s = Some s' -> Inv s'.
Proof.
  intros HI Hs. apply step_AFinish in Hs as (t & Ht & ->).
  destruct HI as [Ipos Isem Icap Iwg Itasks Inodup Icover Iver Iuniq Iacc
                  Ijoined Iordered Irules Icreate Itotal Ilaunched Igroup].
  pose proof (lookup_lt_Some _ _ _ Ht) as Hlt.
  constructor; unfold cursor in *; simpl; try assumption.
  rewrite length_delete by eauto. lia.
Qed.

Lemma Inv_AReturn s s' :
  Inv s -> step Format plan AReturn s = Some s' -> Inv s'.
Proof.
  intros HI Hs. apply step_AReturn in Hs as (Hpc & ->).
  destruct HI as [Ipos Isem Icap Iwg Itasks Inodup Icover Iver Iuniq Iacc
                  Ijoined Iordered Irules Icreate Itotal Ilaunched Igroup].
  unfold cursor in *. rewrite Hpc in *.
  constructor; unfold cursor; simpl; assumption || exact I.
Qed.

Lemma Inv_AVerify k w s s' :
  Inv s -> step Format plan (AVerify k w) s = Some s' -> Inv s'.
Proof.
  intros HI Hs. apply step_AVerify in Hs as (t & g & r & Ht & Hg & Hr & ->).
  destruct HI as [Ipos Isem Icap Iwg Itasks Inodup Icover Iver Iuniq Iacc
                  Ijoined Iordered Irules Icreate Itotal Ilaunched Igroup].
  pose proof (lookup_lt_Some _ _ _ Ht) as Hlt.
  destruct (lookup_delete_split _ _ _ Ht) as (l1 & l2 & Hq & Hd).
  assert (t ∈ querying s) as Hin by (by eapply list_elem_of_lookup_2).
  destruct (Itasks t Hin) as (Htg & Hti & Hta & Hno).
  assert (∀ t', t' ∈ delete k (querying s) ->
            t' ∈ querying s ∧ t_index t' ≠ t_index t) as Hrest.
  { intros t' Ht'. rewrite Hd in Ht'. rewrite Hq in Inodup |- *.
    rewrite fmap_app, fmap_cons in Inodup.
    apply NoDup_app in Inodup as (_ & Hx & [Hy _]%NoDup_cons).
    apply elem_of_app in Ht' as [Ht'|Ht'].
    - split; [apply elem_of_app; by left|].
      intros E. apply (Hx (t_index t')); [by apply list_elem_of_fmap_2|].
      rewrite E. by left.
    - split; [apply elem_of_app; right; by right|].
      intros E. apply Hy. rewrite <- E. by apply list_elem_of_fmap_2. }
  assert (∀ p q r se wg an dn dq tq dd h,
            cursor (mkState (pc s) p q r se wg an dn dq tq dd h) = cursor s)
    as Hcur by reflexivity.
  constructor; rewrite ?Hcur; simpl.
  - done.
  - rewrite length_delete by eauto. rewrite length_app. simpl. lia.
  - done.
  - rewrite length_delete by eauto. rewrite length_app. simpl. lia.
  - intros t' Ht'. destruct (Hrest t' Ht') as [Hin' Hne].
    destruct (Itasks t' Hin') as (Hg1 & Hi1 & Ha1 & Hno1).
    repeat split; try done.
    intros r' [[= E1 E2 _]|H]%elem_of_cons; [by apply Hne | exact (Hno1 _ H)].
  - rewrite Hd. rewrite Hq in Inodup.
    rewrite fmap_app, fmap_cons in Inodup. rewrite fmap_app.
    apply NoDup_app in Inodup as (Ha & Hb & [_ Hc]%NoDup_cons).
    apply NoDup_app. split; [done|]. split; [|done].
    intros x Hx Hx'. apply (Hb x Hx). by right.
  - intros ai Hai. destruct (Icover ai Hai) as [[r' Hr'] | (t' & Ht' & Hi')].
    + left. exists r'. by right.
    + destruct (decide (t' = t)) as [->|Hne].
      * left. exists r. rewrite <- Hi', <- Htg. by left.
      * right. exists t'. split; [|done].
        rewrite Hd. rewrite Hq in Ht'.
        apply elem_of_app in Ht' as [Ht'|[Ht'|Ht']%elem_of_cons];
          [apply elem_of_app; by left | done | apply elem_of_app; by right].
  - intros gi ai r' [[= -> -> _]|H]%elem_of_cons; [right; done | exact (Iver _ _ _ H)].
  - intros gi ai r1 r2 [E1|H1]%elem_of_cons [E2|H2]%elem_of_cons.
    + congruence.
    + inversion E1; subst. exfalso. exact (Hno _ H2).
    + inversion E2; subst. exfalso. exact (Hno _ H1).
    + by eapply Iuniq.
  - assert (∀ a, a ∈ appsNoTraffic s ->
              ∃ ai, appsAt (cursor s).1 !! ai = Some a
                    ∧ Verified (cursor s).1 ai (Ok true)
                        ∈ Verified (t_group t) (t_index t) r :: history s)
      as Hold.
    { intros a Ha. destruct (Iacc a Ha) as (ai & Ha1 & Ha2).
      exists ai. split; [done | by right]. }
    destruct r as [[|]|e]; try exact Hold.
    intros a [Ha | ->%list_elem_of_singleton]%elem_of_app; [by apply Hold|].
    exists (t_index t). rewrite <- Htg. split; [done | by left].
  - intros gi. rewrite <- Ijoined. split; intros [f H]; exists f.
    + apply elem_of_cons in H as [H|H]; [discriminate | done].
    + by right.
  - done.
  - intros dr Hdr. destruct (Irules dr Hdr) as (gi' & g' & f & Hr1 & Hr2 & Hr3).
    exists gi', g', f. repeat split; try done. by right.
  - done.
  - done.
  - intros gi' ai [H|H]%elem_of_cons; [discriminate | by apply Ilaunched].
  - done.
Qed.

Lemma Inv_AJoin s s' :
  Inv s -> step Format plan AJoin s = Some s' -> Inv s'.
Proof.
  intros HI Hs.
  apply step_AJoin in Hs as (gi & next & g & rules & Hpc & Hg & Hnext & Hwg
                             & Hrules & ->).
  assert (cursor s = (gi, next)) as Hc by (unfold cursor; now rewrite Hpc).
  destruct HI as [Ipos Isem Icap Iwg Itasks Inodup Icover Iver Iuniq Iacc
                  Ijoined Iordered Irules Icreate Itotal Ilaunched Igroup].
  rewrite Hc in *. simpl in *.
  pose proof (appsAt_lookup _ _ Hg) as Hat.
  pose proof (lookup_lt_Some _ _ _ Hg) as Hlt.
  assert (querying s = []) as Hq by (apply length_zero_iff_nil; lia).
  assert (∀ q r f se w0 an dn dq tq dd h,
            cursor (mkState (enter plan (S gi) rules) q r f se w0 an dn dq tq dd h)
            = (S gi, 0)) as Hcur
    by (intros; unfold cursor; cbn [pc]; apply enter_cursor; lia).
  constructor; rewrite ?Hcur; simpl.
  - lia.
  - done.
  - done.
  - done.
  - rewrite Hq. intros t Ht. inversion Ht.
  - done.
  - intros ai Hai. lia.
  - intros gi' ai r [H|H]%elem_of_cons; [discriminate|].
    apply Iver in H. lia.
  - intros gi' ai r r' [H|H]%elem_of_cons [H'|H']%elem_of_cons;
      try discriminate. by eapply Iuniq.
  - intros a Ha. inversion Ha.
  - intros gi'. split.
    + intros [f [[= -> _]|H]%elem_of_cons]; [lia|].
      assert (gi' < gi) by (apply Ijoined; eauto). lia.
    + intros Hlt'. destruct (decide (gi' = gi)) as [->|Hne].
      * eexists. by left.
      * destruct (proj2 (Ijoined gi') ltac:(lia)) as [f Hf].
        exists f. by right.
  - split; [|done]. split.
    + intros ai Hai. rewrite Hat, <- Hnext in Hai.
      destruct (Icover ai Hai) as [Hv | (t & Ht & _)]; [done|].
      rewrite Hq in Ht. inversion Ht.
    + intros a Ha. by apply Iacc.
  - assert (∀ dr, dr ∈ denyRules s ->
      ∃ gi0 g0 f, groups plan !! gi0 = Some g0
        ∧ Joined gi0 f ∈ Joined gi (appsNoTraffic s) :: history s
        ∧ dr = mkDenyRuleInfo (ei_env (fst g0)) (snd g0) f) as Hold.
    { intros dr Hdr. destruct (Irules dr Hdr) as (gi0 & g0 & f & Hr1 & Hr2 & Hr3).
      exists gi0, g0, f. repeat split; try done. by right. }
    subst rules. case_decide; [|done].
    intros dr [Hdr | ->%list_elem_of_singleton]%elem_of_app; [by apply Hold|].
    exists gi, g, (appsNoTraffic s). repeat split; [done | by left].
  - unfold enter.
    destruct (decide (S gi < length (groups plan))); [exact I | reflexivity].
  - done.
  - intros gi' ai [H|H]%elem_of_cons; [discriminate | by apply Ilaunched].
  - unfold enter.
    destruct (decide (S gi < length (groups plan))); [done | exact I].
Qed.

Lemma Inv_ACreate w s s' :
  Inv s -> step Format plan (ACreate w) s = Some s' -> Inv s'.
Proof.
  intros HI Hs. apply step_ACreate in Hs as (dr & rest & r & Hpc & Hr & ->).
  assert (cursor s = (length (groups plan), 0)) as Hc
    by (unfold cursor; now rewrite Hpc).
  destruct HI as [Ipos Isem Icap Iwg Itasks Inodup Icover Iver Iuniq Iacc
                  Ijoined Iordered Irules Icreate Itotal Ilaunched Igroup].
  rewrite Hpc in Icreate.
  assert (∀ q r f se w0 an dn dq tq dd h,
            cursor (mkState (Creating rest) q r f se w0 an dn dq tq dd h)
            = cursor s) as Hcur by (intros; by rewrite Hc).
  constructor; rewrite ?Hcur; simpl; try done.
  - intros t Ht. destruct (Itasks t Ht) as (Hg1 & Hi1 & Ha1 & Hno1).
    repeat split; try done.
    intros r' [H|H]%elem_of_cons; [discriminate | exact (Hno1 _ H)].
  - intros ai Hai. destruct (Icover ai Hai) as [[r' Hr'] | Ht].
    + left. exists r'. by right.
    + by right.
  - intros gi ai r' [H|H]%elem_of_cons; [discriminate | exact (Iver _ _ _ H)].
  - intros gi' ai r1 r2 [H|H]%elem_of_cons [H'|H']%elem_of_cons;
      try discriminate. by eapply Iuniq.
  - intros a Ha. destruct (Iacc a Ha) as (ai & Ha1 & Ha2).
    exists ai. split; [done | by right].
  - intros gi'. rewrite <- Ijoined. split; intros [f H]; exists f.
    + apply elem_of_cons in H as [H|H]; [discriminate | done].
    + by right.
  - split; [|done]. split.
    + intros gi Hgi. apply Ijoined. by rewrite Hc.
    + apply Irules. destruct Icreate as [pre ->].
      apply elem_of_app. right. by left.
  - intros dr' Hdr. destruct (Irules dr' Hdr) as (gi' & g' & f & Hr1 & Hr2 & Hr3).
    exists gi', g', f. repeat split; try done. by right.
  - by eapply suffix_cons_l.
  - intros gi' ai [H|H]%elem_of_cons; [discriminate | by apply Ilaunched].
Qed.

Lemma Inv_step a s s' :
  Inv s -> step Format plan a s = Some s' -> Inv s'.
Proof.
  destruct a; eauto using Inv_ALaunch, Inv_AVerify, Inv_ARelease, Inv_AFinish,
    Inv_AJoin, Inv_ACreate, Inv_AReturn.
Qed.

Lemma Inv_exec acts : ∀ s s',
  Inv s -> exec Format plan acts s = Some s' -> Inv s'.
Proof.
  induction acts as [|a acts IH]; intros s s' HI H; simpl in H.
  - by injection H as <-.
  - destruct (step Format plan a s) as [s1|] eqn:E; [|discriminate].
    simpl in H. eapply IH; [|exact H]. by eapply Inv_step.
Qed.

Lemma Inv_reachable s : reachable Format plan s -> Inv s.
Proof. intros [acts H]. eapply Inv_exec; [apply Inv_initial | exact H]. Qed.

Lemma ordered_split later e earlier :
  ordered (later ++ e :: earlier) -> barrier e earlier.
Proof.
  induction later as [|x later IH]; simpl; intros [H1 H2]; [done | auto].
Qed.

Lemma barrier_at s later e earlier :
  Inv s -> history s = later ++ e :: earlier -> barrier e earlier.
Proof.
  intros HI Hh. apply (ordered_split later). rewrite <- Hh. apply HI.
Qed.

Lemma ordered_suffix later earlier :
  ordered (later ++ earlier) -> ordered earlier.
Proof.
  induction later as [|x later IH]; simpl; [done | intros [_ H]; auto].
Qed.

(** C2. Along every run, when a group is joined (and its finding, if any,
    appended to the deny rules) every application of the group already has
    a verification outcome, whatever the outcome; and when a deny-rule
    request is made every group has already been joined, the request being
    built from the finding of one of these joins, a group all of whose
    applications had their verification outcome by then. *)
Theorem join_barrier acts s :
  exec Format plan acts (initial plan) = Some s ->
  (∀ later gi f earlier,
     history s = later ++ Joined gi f :: earlier ->
     ∀ ai, ai < length (appsAt gi) -> ∃ r, Verified gi ai r ∈ earlier)
  ∧ (∀ later dr r earlier,
       history s = later ++ RuleRequested dr r :: earlier ->
       (∀ gi, gi < length (groups plan) -> ∃ f, Joined gi f ∈ earlier)
       ∧ (∃ gi g f, groups plan !! gi = Some g ∧ Joined gi f ∈ earlier
                    ∧ dr = mkDenyRuleInfo (ei_env (fst g)) (snd g) f
                    ∧ ∀ ai, ai < length (ei_apps (fst g)) ->
                        ∃ r', Verified gi ai r' ∈ earlier)).
Proof.
  intros Hrun.
  assert (Inv s) as HI by (apply Inv_reachable; by exists acts).
  split.
  - intros later gi f earlier Hh. by destruct (barrier_at _ _ _ _ HI Hh).
  - intros later dr r earlier Hh.
    destruct (barrier_at _ _ _ _ HI Hh) as [Hall (gi & g & f & Hg & Hj & Hdr)].
    split; [done|]. exists gi, g, f. repeat split; try done.
    intros ai Hai.
    assert (ordered earlier) as Ho.
    { apply (ordered_suffix (later ++ [RuleRequested dr r])).
      rewrite <- app_assoc. simpl. rewrite <- Hh. apply HI. }
    apply list_elem_of_split in Hj as (l1 & l2 & ->).
    destruct (ordered_split _ _ _ Ho) as [Hv _].
    rewrite <- (appsAt_lookup _ _ Hg) in Hai.
    destruct (Hv ai Hai) as [r' Hr']. exists r'.
    apply elem_of_app. right. by right.
Qed.

(** C5 (as amended). Along every run at most two verification tasks are in
    flight, across all groups: they hold the tokens of one semaphore of
    capacity 2, and with two tokens taken no further task is launched.  The
    capacity is the constant 2. *)
Theorem in_flight_bound acts s :
  exec Format plan acts (initial plan) = Some s ->
  inFlight s ≤ 2
  ∧ inFlight s ≤ sem s ∧ sem s ≤ semCapacity ∧ semCapacity = 2
  ∧ (sem s = semCapacity -> step Format plan ALaunch s = None).
Proof.
  intros Hrun.
  assert (Inv s) as HI by (apply Inv_reachable; by exists acts).
  destruct HI as [_ Isem Icap _ _ _ _ _ _ _ _ _ _ _ _ _ _].
  unfold inFlight, semCapacity in *. repeat split; try lia.
  intros Hfull. destruct (step Format plan ALaunch s) as [s'|] eqn:E; [|done].
  apply step_ALaunch in E as (? & ? & ? & ? & _ & _ & _ & Hlt & _).
  unfold semCapacity in Hlt. lia.
Qed.

(** Some action can always be taken until [main] has returned. *)
Lemma Inv_progress s :
  Inv s -> pc s ≠ Finished -> ∃ a, is_Some (step Format plan a s).
Proof.
  intros HI Hpc.
  destruct HI as [Ipos Isem Icap Iwg Itasks _ _ _ _ _ _ _ _ _ _ _ Igroup].
  destruct (querying s) as [|t q] eqn:Hq.
  - destruct (releasing s) as [|t r] eqn:Hr.
    + destruct (finishing s) as [|t f] eqn:Hf.
      * simpl in *. unfold cursor in Ipos.
        destruct (pc s) as [gi next|[|dr rest]|] eqn:Hp; [| | |done].
        -- simpl in Ipos.
           destruct (decide (next < length (appsAt gi))) as [Hlt|Hge].
           ++ exists ALaunch. unfold step. rewrite Hp.
              pose proof (appsAt_lt _ _ Hlt) as Hgi.
              apply lookup_lt_is_Some in Hgi as [g Hg].
              rewrite Hg. simpl. rewrite (appsAt_lookup _ _ Hg) in Hlt.
              apply lookup_lt_is_Some in Hlt as [app Happ].
              rewrite Happ. simpl.
              rewrite decide_True by (unfold semCapacity; lia). eauto.
           ++ exists AJoin. unfold step. rewrite Hp.
              destruct (groups plan !! gi) as [g|] eqn:Hg.
              ** simpl. rewrite (appsAt_lookup _ _ Hg) in *.
                 rewrite decide_True by (split; lia). eauto.
              ** exfalso. apply lookup_ge_None in Hg. lia.
        -- exists AReturn. unfold step. rewrite Hp. eauto.
        -- exists (ACreate (mkWorld 0 [] [] [])). unfold step. rewrite Hp. eauto.
      * exists (AFinish 0).
        assert (step Format plan (AFinish 0) s
                = Some (mkState (pc s) (querying s) (releasing s)
                          (delete 0 (finishing s)) (sem s) (wg s - 1)
                          (appsNoTraffic s) (denyRules s) (doneQueries s)
                          (totalQueries s) (doneDenyRules s) (history s))) as ->
          by (unfold step; rewrite Hf; destruct (pc s); reflexivity).
        eauto.
    + exists (ARelease 0).
      assert (step Format plan (ARelease 0) s
              = Some (mkState (pc s) (querying s) (delete 0 (releasing s))
                        (finishing s ++ [t]) (sem s - 1) (wg s)
                        (appsNoTraffic s) (denyRules s) (doneQueries s)
                        (totalQueries s) (doneDenyRules s) (history s))) as ->
        by (unfold step; rewrite Hr; destruct (pc s); reflexivity).
      eauto.
  - assert (t ∈ querying s) as Hin by (rewrite Hq; by left).
    rewrite <- Hq in Itasks.
    destruct (Itasks t Hin) as (_ & _ & Ha & _).
    assert (is_Some (groups plan !! t_group t)) as [g Hg].
    { apply lookup_lt_is_Some. eapply appsAt_lt.
      eapply lookup_lt_Some. exact Ha. }
    exists (AVerify 0 (mkWorld 0 [] [] [])).
    unfold step. rewrite Hq. simpl. rewrite Hg. simpl.
    destruct (pc s); eauto.
Qed.

(** *** Every run comes to an end *)

(** The applications of the groups from [gi] on. *)
Definition appsFrom (gi : nat) : nat :=
  sum_list ((fun g : envInfo * Service => length (ei_apps (fst g)))
              <$> drop gi (groups plan)).

(** The actions a state still has before it: four per application not yet
    launched, three, two, one per goroutine by its stage, one per join and
    per rule. *)
Definition workLeft (s : State) : nat :=
  3 * length (querying s) + 2 * length (releasing s) + length (finishing s)
  + match pc s with
    | Fanout gi next =>
        4 * (appsFrom gi - next) + 2 * (length (groups plan) - gi)
        + length (denyRules s) + 2
    | Creating rest => length rest + 1
    | Finished => 0
    end.

Lemma appsFrom_lookup gi g :
  groups plan !! gi = Some g ->
  appsFrom gi = length (ei_apps (fst g)) + appsFrom (S gi).
Proof.
  intros Hg. unfold appsFrom. by rewrite (drop_S _ _ _ Hg).
Qed.

Lemma appsFrom_past gi : length (groups plan) ≤ gi -> appsFrom gi = 0.
Proof. intros H. unfold appsFrom. by rewrite drop_ge. Qed.

Lemma step_workLeft a s s' :
  step Format plan a s = Some s' -> workLeft s' < workLeft s.
Proof.
  destruct a as [|k w|k|k| |w|]; intros Hs.
  - apply step_ALaunch in Hs as (gi & next & g & app & Hpc & Hg & Happ & _ & ->).
    unfold workLeft. rewrite Hpc. cbn [pc querying releasing finishing denyRules].
    rewrite length_app. simpl length.
    rewrite (appsFrom_lookup _ _ Hg).
    apply lookup_lt_Some in Happ. lia.
  - apply step_AVerify in Hs as (t & g & r & Ht & _ & _ & ->).
    unfold workLeft. cbn [pc querying releasing finishing denyRules].
    rewrite length_delete by eauto. rewrite length_app. simpl length.
    apply lookup_lt_Some in Ht. lia.
  - apply step_ARelease in Hs as (t & Ht & ->).
    unfold workLeft. cbn [pc querying releasing finishing denyRules].
    rewrite length_delete by eauto. rewrite length_app. simpl length.
    apply lookup_lt_Some in Ht. lia.
  - apply step_AFinish in Hs as (t & Ht & ->).
    unfold workLeft. cbn [pc querying releasing finishing denyRules].
    rewrite length_delete by eauto.
    apply lookup_lt_Some in Ht. lia.
  - apply step_AJoin in Hs as (gi & next & g & rules & Hpc & Hg & -> & _ & Hr & ->).
    unfold workLeft. rewrite Hpc. cbn [pc querying releasing finishing denyRules].
    rewrite (appsFrom_lookup _ _ Hg).
    assert (length rules ≤ length (denyRules s) + 1) as Hlen.
    { subst rules. case_decide; [rewrite length_app; simpl|]; lia. }
    pose proof (lookup_lt_Some _ _ _ Hg) as Hlt.
    unfold enter. destruct (decide (S gi < length (groups plan))); simpl; lia.
  - apply step_ACreate in Hs as (dr & rest & r & Hpc & _ & ->).
    unfold workLeft. rewrite Hpc. simpl. lia.
  - apply step_AReturn in Hs as (Hpc & ->).
    unfold workLeft. rewrite Hpc. simpl. lia.
Qed.

(** From a state of a run, the run can be taken to the return of [main]. *)
Lemma Inv_completable n : ∀ s,
  workLeft s ≤ n -> Inv s ->
  ∃ acts s', exec Format plan acts s = Some s' ∧ pc s' = Finished.
Proof.
  assert (∀ s, pc s = Finished ∨ pc s ≠ Finished) as Hdec
    by (intros s; destruct (pc s); auto; right; discriminate).
  induction n as [|n IH]; intros s Hn HI.
  - destruct (Hdec s) as [Hf|Hf]; [by exists [], s|].
    destruct (Inv_progress s HI Hf) as (a & s1 & Hs).
    apply step_workLeft in Hs. lia.
  - destruct (Hdec s) as [Hf|Hf]; [by exists [], s|].
    destruct (Inv_progress s HI Hf) as (a & s1 & Hs).
    destruct (IH s1) as (acts & s' & Hrun & Hfin).
    + apply step_workLeft in Hs. lia.
    + by eapply Inv_step.
    + exists (a :: acts), s'. split; [|done]. simpl. by rewrite Hs.
Qed.

(** C4. Along every run: when the verification of an application returns
    an error, the step is taken like any other: the no-traffic list and the
    deny rules stay as they were, [main] stays where it was, the sibling
    verifications stay in flight, and the run can go on.  When the group
    is joined, an application whose verification returned an error is not
    in its finding (the applications of a group being distinct).  And until
    [main] has returned some action can always be taken, and the run can
    be taken on to the return of [main]: no outcome stops it. *)
Theorem verification_error_contained acts s :
  exec Format plan acts (initial plan) = Some s ->
  (∀ k t g w e,
     querying s !! k = Some t -> groups plan !! t_group t = Some g ->
     fst (submitTrafficQuery Format (Href (ei_env (fst g))) (Href (t_app t))
            (snd g) (excludeBroadcast (pl_flags plan))
            (excludeMulticast (pl_flags plan)) w) = Err e ->
     ∃ s', step Format plan (AVerify k w) s = Some s'
           ∧ appsNoTraffic s' = appsNoTraffic s
           ∧ denyRules s' = denyRules s
           ∧ pc s' = pc s
           ∧ querying s' = delete k (querying s)
           ∧ history s'
             = Verified (t_group t) (t_index t) (Err e) :: history s
           ∧ ∃ a, is_Some (step Format plan a s'))
  ∧ (∀ gi ai e f a,
       Verified gi ai (Err e) ∈ history s -> Joined gi f ∈ history s ->
       appsAt gi !! ai = Some a -> NoDup (appsAt gi) -> a ∉ f)
  ∧ (pc s ≠ Finished -> ∃ a, is_Some (step Format plan a s))
  ∧ (∃ rest s', exec Format plan rest s = Some s' ∧ pc s' = Finished).
Proof.
  intros Hrun.
  assert (Inv s) as HI by (apply Inv_reachable; by exists acts).
  split; [|split; [|split]].
  - intros k t g w e Ht Hg He.
    destruct (step Format plan (AVerify k w) s) as [s'|] eqn:E.
    + pose proof (Inv_step _ _ _ HI E) as HI'.
      apply step_AVerify in E as (t' & g' & r & Ht' & Hg' & Hr & ->).
      rewrite Ht in Ht'. injection Ht' as <-.
      rewrite Hg in Hg'. injection Hg' as <-.
      rewrite He in Hr. subst r.
      eexists. split; [reflexivity|]. simpl. repeat split.
      apply Inv_progress; [done|]. simpl.
      assert (t ∈ querying s) as Hin by (by eapply list_elem_of_lookup_2).
      destruct (inv_tasks _ HI t Hin) as (_ & Hlt & _).
      unfold cursor in Hlt. destruct (pc s); simpl in Hlt; [done | lia | lia].
    + exfalso. revert E. unfold step. rewrite Ht. simpl. rewrite Hg. simpl.
      destruct (pc s); discriminate.
  - intros gi ai e f a Hv Hj Ha Hnd Hin.
    apply list_elem_of_split in Hj as (later & earlier & Hh).
    destruct (barrier_at _ _ _ _ HI Hh) as [_ Hf].
    destruct (Hf a Hin) as (ai' & Ha' & Hv').
    assert (ai' = ai) as -> by (eapply NoDup_lookup; eauto).
    assert (Verified gi ai (Ok true) ∈ history s) as Hv''.
    { rewrite Hh. apply elem_of_app. right. by right. }
    pose proof (inv_uniq _ HI _ _ _ _ Hv Hv''). discriminate.
  - by apply Inv_progress.
  - by apply (Inv_completable (workLeft s)).
Qed.

End OrchestratorProofs.

(** ** The catalog *)

Lemma wrap64_small z : (- 2 ^ 63 <= z < 2 ^ 63)%Z -> wrap64 z = z.
Proof.
  intros H. unfold wrap64. rewrite Z.mod_small; lia.
Qed.

Lemma queriesFor_nonneg services apps : (0 <= queriesFor services apps)%Z.
Proof. unfold queriesFor. lia. Qed.

Lemma sumZ_queries_nonneg services (envInfos : list envInfo) :
  (0 <= sumZ (map (fun ei => queriesFor services (ei_apps ei)) envInfos))%Z.
Proof.
  induction envInfos as [|ei l IH]; simpl; [lia|].
  pose proof (queriesFor_nonneg services (ei_apps ei)). lia.
Qed.

(** Without overflow the running total is the sum. *)
Lemma countQueries_exact services envInfos :
  (sumZ (map (fun ei => queriesFor services (ei_apps ei)) envInfos) < 2 ^ 63)%Z ->
  countQueries services envInfos
  = sumZ (map (fun ei => queriesFor services (ei_apps ei)) envInfos).
Proof.
  unfold countQueries.
  assert (∀ l acc,
    (0 <= acc)%Z ->
    (acc + sumZ (map (fun ei => queriesFor services (ei_apps ei)) l) < 2 ^ 63)%Z ->
    foldl (fun totalQueries ei =>
             wrap64 (totalQueries
                     + wrap64 (Z.of_nat (length services)
                               * Z.of_nat (length (ei_apps ei)))))
          acc l
    = (acc + sumZ (map (fun ei => queriesFor services (ei_apps ei)) l))%Z) as H.
  { induction l as [|ei l IH]; intros acc Hacc Hlt; simpl in *; [lia|].
    pose proof (queriesFor_nonneg services (ei_apps ei)) as Hq.
    pose proof (sumZ_queries_nonneg services l) as Hs.
    unfold queriesFor in *.
    rewrite (wrap64_small (Z.of_nat (length services) * _)) by lia.
    rewrite wrap64_small by lia.
    rewrite IH by lia. lia. }
  intros Hlt. rewrite H; lia.
Qed.

(** The environments kept are those with a loaded, non-empty set. *)
Lemma loadEnvInfos_appSets envs : ∀ w,
  fst (loadEnvInfos envs w) = omap nonEmptySet (appSets envs w).
Proof.
  induction envs as [|env rest IH]; intros w; simpl; [done|].
  destruct (getWorkloadsForEnv env w) as [[apps|e] w1]; simpl.
  - destruct apps as [|a apps]; simpl.
    + unfold nonEmptySet at 1. simpl. apply IH.
    + unfold nonEmptySet at 1. simpl. rewrite <- IH.
      by destruct (loadEnvInfos rest w1).
  - unfold nonEmptySet at 1. simpl. apply IH.
Qed.

Lemma nonEmptySet_apps x ei :
  nonEmptySet x = Some ei -> ei_env ei = fst x ∧ snd x = Ok (ei_apps ei)
                             ∧ ei_apps ei ≠ [].
Proof.
  unfold nonEmptySet. destruct x as [env [[|a apps]|e]]; simpl; try done.
  intros [= <-]. done.
Qed.

Lemma loadEnvInfos_nonempty envs w :
  Forall (fun ei => ei_apps ei ≠ []) (fst (loadEnvInfos envs w)).
Proof.
  rewrite loadEnvInfos_appSets. apply Forall_forall.
  intros ei (x & _ & Hx)%list_elem_of_omap.
  by apply nonEmptySet_apps in Hx as (_ & _ & ?).
Qed.

(** The sum over the kept environments is the sum over all of them whose
    set was loaded: an empty set adds nothing. *)
Lemma sumZ_kept services (sets : list (Label * result (list Label))) :
  sumZ (map (fun ei => queriesFor services (ei_apps ei)) (omap nonEmptySet sets))
  = sumZ (map (fun x => match snd x with
                        | Ok apps => queriesFor services apps
                        | Err _ => 0%Z
                        end) sets).
Proof.
  induction sets as [|[env [[|a apps]|e]] sets IH]; [done| | |].
  - change (omap nonEmptySet ((env, Ok []) :: sets))
      with (omap nonEmptySet sets).
    rewrite IH. cbn [map snd]. unfold sumZ, queriesFor. simpl. lia.
  - change (omap nonEmptySet ((env, Ok (a :: apps)) :: sets))
      with (mkEnvInfo env (a :: apps) :: omap nonEmptySet sets).
    cbn [map snd ei_apps]. unfold sumZ in *. simpl. by rewrite IH.
  - change (omap nonEmptySet ((env, Err e) :: sets))
      with (omap nonEmptySet sets).
    rewrite IH. cbn [map snd]. unfold sumZ. simpl. lia.
Qed.

(** The applications of a loaded set are distinct. *)
Lemma collectApps_keys workloads k l :
  collectApps workloads !! k = Some l -> Href l = k.
Proof.
  unfold collectApps.
  assert (∀ (ls : list Label) (m : gmap string Label),
    (∀ k l, m !! k = Some l -> Href l = k) ->
    ∀ k l, foldl (fun uniqueApps l =>
                    if decide (Key l = "app")
                    then <[Href l := l]> uniqueApps
                    else uniqueApps) m ls !! k = Some l -> Href l = k) as Hin.
  { induction ls as [|x ls IH]; intros m Hm k' l'; simpl; [apply Hm|].
    apply IH. case_decide; [|done].
    intros k2 l2. rewrite lookup_insert. case_decide; [|apply Hm].
    intros [= <-]. done. }
  assert (∀ (ws : list (list Label)) (m : gmap string Label),
    (∀ k l, m !! k = Some l -> Href l = k) ->
    ∀ k l, foldl (fun uniqueApps labels =>
                    foldl (fun uniqueApps l =>
                             if decide (Key l = "app")
                             then <[Href l := l]> uniqueApps
                             else uniqueApps) uniqueApps labels) m ws !! k
           = Some l -> Href l = k) as Hout.
  { induction ws as [|ls ws IH]; intros m Hm k' l'; simpl; [apply Hm|].
    apply IH. by apply Hin. }
  apply Hout. intros k' l'. by rewrite lookup_empty.
Qed.

Lemma getWorkloadsForEnv_Ok env w apps w' :
  getWorkloadsForEnv env w = (Ok apps, w') ->
  ∃ workloads, apps = (map_to_list (collectApps workloads)).*2.
Proof.
  unfold getWorkloadsForEnv. rewrite bind_run. unfold wrapErr at 1.
  destruct (apiRequestWithRetry _ _ _ w) as [[data|e] w1]; [|discriminate].
  rewrite bind_run. unfold wrapErr, lift.
  destruct (asWorkloads data) as [workloads|e]; [|discriminate].
  intros [= <- _]. eauto.
Qed.

Lemma getWorkloadsForEnv_NoDup env w apps w' :
  getWorkloadsForEnv env w = (Ok apps, w') -> NoDup apps.
Proof.
  intros [workloads ->]%getWorkloadsForEnv_Ok.
  apply NoDup_fmap_2_strong; [|apply NoDup_map_to_list].
  intros [k1 l1] [k2 l2] H1%elem_of_map_to_list H2%elem_of_map_to_list.
  simpl. intros <-.
  apply collectApps_keys in H1, H2. congruence.
Qed.

Lemma loadEnvInfos_NoDup envs : ∀ w,
  Forall (fun ei => NoDup (ei_apps ei)) (fst (loadEnvInfos envs w)).
Proof.
  induction envs as [|env rest IH]; intros w; simpl; [constructor|].
  destruct (getWorkloadsForEnv env w) as [[apps|e] w1] eqn:E; [|apply IH].
  case_decide; [apply IH|].
  specialize (IH w1). destruct (loadEnvInfos rest w1) as [eis w2]. simpl in *.
  constructor; [|done]. simpl. by eapply getWorkloadsForEnv_NoDup.
Qed.

(** ** Resolving the shared target *)


(** ** The requests of the catalog calls *)

Definition envsURL : string :=
  apiBase +:+ "/orgs/" +:+ org +:+ "/labels?key=env".
Definition servicesURL : string :=
  apiBase +:+ "/orgs/" +:+ org +:+ "/sec_policy/draft/services?is_ransomware=true".
Definition ruleSetsURL : string :=
  apiBase +:+ "/orgs/" +:+ org +:+ "/sec_policy/draft/rule_sets".
Definition workloadsURL (env : Label) : string :=
  apiBase +:+ "/orgs/" +:+ org
    +:+ "/workloads?managed=true&online=true&labels=[[" +:+ quoted (Href env)
    +:+ "]]&enforcement_modes=[" +:+ quoted "idle" +:+ ","
    +:+ quoted "selective" +:+ "," +:+ quoted "visibility_only" +:+ "]".
Definition ipListsURL (targetName : string) : string :=
  apiBase +:+ "/orgs/" +:+ org
    +:+ "/sec_policy/draft/ip_lists?max_results=500&name="
    +:+ QueryEscape targetName.
Definition ruleSetPayload (name : string) : GoVal :=
  goMap [
    ("name", VStr name);
    ("description", VStr "Created by Auto Deny Rules script.");
    ("scopes", VSlice [VSlice []])].

(** The world after one transport call. *)
Definition asked (w : World) (r : request) : World :=
  mkWorld (clock w) (tail (net w)) (fires w) (Request r :: trace w).

Lemma getEnvs_world w :
  snd (getEnvs w) = asked w (mkRequest GET envsURL None).
Proof.
  unfold getEnvs. rewrite bind_run. unfold wrapErr at 1.
  pose proof (apiRequestWithRetry_world GET envsURL None w) as H.
  unfold envsURL in H.
  destruct (apiRequestWithRetry _ _ _ w) as [[data|e] w1]; simpl in H; subst w1;
    [|done].
  rewrite bind_run. unfold wrapErr, lift. by destruct (asLabels data).
Qed.

Lemma getRansomServices_world w :
  snd (getRansomServices w) = asked w (mkRequest GET servicesURL None).
Proof.
  unfold getRansomServices. rewrite bind_run. unfold wrapErr at 1.
  pose proof (apiRequestWithRetry_world GET servicesURL None w) as H.
  unfold servicesURL in H.
  destruct (apiRequestWithRetry _ _ _ w) as [[data|e] w1]; simpl in H; subst w1;
    [|done].
  rewrite bind_run. unfold wrapErr, lift. by destruct (asServices data).
Qed.

Lemma getWorkloadsForEnv_world env w :
  snd (getWorkloadsForEnv env w)
  = asked w (mkRequest GET (workloadsURL env) None).
Proof.
  unfold getWorkloadsForEnv. rewrite bind_run. unfold wrapErr at 1.
  pose proof (apiRequestWithRetry_world GET (workloadsURL env) None w) as H.
  unfold workloadsURL in H.
  destruct (apiRequestWithRetry _ _ _ w) as [[data|e] w1]; simpl in H; subst w1;
    [|done].
  rewrite bind_run. unfold wrapErr, lift. by destruct (asWorkloads data).
Qed.

Lemma createRuleset_world name w :
  snd (createRuleset name w)
  = asked w (mkRequest POST ruleSetsURL (Some (ruleSetPayload name))).
Proof.
  unfold createRuleset. rewrite bind_run.
  pose proof (apiRequestWithRetry_world POST ruleSetsURL
                (Some (ruleSetPayload name)) w) as H.
  unfold ruleSetsURL, ruleSetPayload in H.
  destruct (apiRequestWithRetry _ _ _ w) as [[data|e] w1]; simpl in H; subst w1;
    [|done].
  rewrite bind_run. unfold lift. by destruct (asObject data).
Qed.

Lemma getIPListHref_world targetName w :
  snd (getIPListHref targetName w)
  = asked w (mkRequest GET (ipListsURL targetName) None).
Proof.
  unfold getIPListHref. rewrite bind_run.
  pose proof (apiRequestWithRetry_world GET (ipListsURL targetName) None w) as H.
  unfold ipListsURL in H.
  destruct (apiRequestWithRetry _ _ _ w) as [[data|e] w1]; simpl in H; subst w1;
    [|done].
  rewrite bind_run. unfold lift. by destruct (asIPLists data) as [[|x l]|e].
Qed.

(** ** The whole run *)

Section RunProofs.

Variable Format : string -> Z -> string.

(** What [main] went through when it reaches the fan-out. *)
Lemma mainSetup_plan flags w plan w' :
  mainSetup Format flags w = (inr plan, w') ->
  ∃ envs w1 w2 w3 w4,
    getEnvs w = (Ok envs, w1)
    ∧ getRansomServices w1 = (Ok (pl_services plan), w2)
    ∧ createRuleset ("Auto Deny Rules - "
                     +:+ Format "Jan 02, 2006 15:04:05" (clock w2)) w2
      = (Ok (pl_rulesetHref plan), w3)
    ∧ loadEnvInfos envs w3 = (pl_envInfos plan, w4)
    ∧ pl_totalQueries plan = countQueries (pl_services plan) (pl_envInfos plan)
    ∧ pl_totalQueries plan ≠ 0%Z
    ∧ getIPListHref targetIPListName w4 = (Ok (pl_ipListHref plan), w')
    ∧ pl_flags plan = flags.
Proof.
  unfold mainSetup.
  destruct (getEnvs w) as [[envs|e] w1] eqn:E1; [|discriminate].
  destruct (getRansomServices w1) as [[services|e] w2] eqn:E2; [|discriminate].
  destruct (createRuleset _ w2) as [[href|e] w3] eqn:E3; [|discriminate].
  destruct (loadEnvInfos envs w3) as [envInfos w4] eqn:E4.
  case_decide; [discriminate|].
  destruct (getIPListHref _ w4) as [[ip|e] w5] eqn:E5; [|discriminate].
  intros [= <- <-]. simpl. exists envs, w1, w2, w3, w4. done.
Qed.

(** The applications of every group of such a plan are distinct. *)
Lemma mainSetup_apps_distinct flags w plan w' gi :
  mainSetup Format flags w = (inr plan, w') -> NoDup (appsAt plan gi).
Proof.
  intros (envs & w1 & w2 & w3 & w4 & _ & _ & _ & Hl & _)%mainSetup_plan.
  unfold appsAt. destruct (groups plan !! gi) as [g|] eqn:Hg; [|constructor].
  apply list_elem_of_lookup_2 in Hg. unfold groups, groupsOf in Hg.
  apply list_elem_of_bind in Hg as (ei & Hg & Hei).
  apply list_elem_of_bind in Hg as (svc & Hg & _).
  apply list_elem_of_singleton in Hg. subst g. simpl.
  pose proof (loadEnvInfos_NoDup envs w3) as Hnd. rewrite Hl in Hnd.
  rewrite Forall_forall in Hnd. by apply Hnd.
Qed.

(** C6 (as amended). A failure to load the environment list, or the
    risky-service list, ends the run at once with a fatal error, nothing
    more being asked of the transport.  A failure to load the application
    set of one environment does not: the environment is skipped and the
    loading goes on with the next.  A verification step and a rule-creation
    step are taken whatever their call returns, error or not, and leave
    [main] where it was, respectively at the next finding. *)
Theorem catalog_errors flags w :
  (∀ e, fst (getEnvs w) = Err e ->
     mainSetup Format flags w
     = (inl (Fatal ("Failed to load environments: " +:+ e)), snd (getEnvs w)))
  ∧ (∀ envs w1 e,
       getEnvs w = (Ok envs, w1) -> fst (getRansomServices w1) = Err e ->
       mainSetup Format flags w
       = (inl (Fatal ("Failed to load ransomware services: " +:+ e)),
          snd (getRansomServices w1)))
  ∧ (∀ env rest e,
       fst (getWorkloadsForEnv env w) = Err e ->
       loadEnvInfos (env :: rest) w
       = loadEnvInfos rest (snd (getWorkloadsForEnv env w)))
  ∧ (∀ plan s k t g w0,
       querying s !! k = Some t -> groups plan !! t_group t = Some g ->
       ∃ s', step Format plan (AVerify k w0) s = Some s'
             ∧ pc s' = pc s ∧ denyRules s' = denyRules s
             ∧ querying s' = delete k (querying s))
  ∧ (∀ plan s dr rest w0,
       pc s = Creating (dr :: rest) ->
       ∃ s' r, step Format plan (ACreate w0) s = Some s'
               ∧ pc s' = Creating rest
               ∧ history s' = RuleRequested dr r :: history s).
Proof.
  split; [|split; [|split; [|split]]].
  - intros e He. unfold mainSetup.
    destruct (getEnvs w) as [[envs|e'] w1]; simpl in *; [discriminate|].
    by injection He as ->.
  - intros envs w1 e He Hs. unfold mainSetup. rewrite He.
    destruct (getRansomServices w1) as [[svcs|e'] w2]; simpl in *;
      [discriminate|].
    by injection Hs as ->.
  - intros env rest e He. simpl.
    destruct (getWorkloadsForEnv env w) as [[apps|e'] w1]; simpl in *;
      [discriminate | done].
  - intros plan s k t g w0 Ht Hg. eexists. split.
    + unfold step. rewrite Ht. simpl. rewrite Hg. simpl.
      destruct (pc s) eqn:E; rewrite <- E; reflexivity.
    + done.
  - intros plan s dr rest w0 Hpc. eexists _, _. split.
    + unfold step. rewrite Hpc. reflexivity.
    + done.
Qed.

(** C8. The total of the progress display, for the plan [main] went into
    the fan-out with: it is the sum of application count times service
    count over the environments kept.  The services are those
    [getRansomServices] returned, and the environments kept are those of
    the list [getEnvs] returned whose application set is loaded and not
    empty, the sets being loaded by [getWorkloadsForEnv], in the order of
    the list, from the world [main] is in after its first three requests
    (the environments, the services, the rule set).  An empty set adds
    nothing to the sum over all loaded sets; along the run the total never
    changes; and every verification launched is for an application of a
    kept environment.  The sum fits an [int64]. *)
Theorem progress_total flags w plan w' acts s :
  mainSetup Format flags w = (inr plan, w') ->
  exec Format plan acts (initial plan) = Some s ->
  (sumZ (map (fun ei => queriesFor (pl_services plan) (ei_apps ei))
           (pl_envInfos plan)) < 2 ^ 63)%Z ->
  pl_totalQueries plan
  = sumZ (map (fun ei => queriesFor (pl_services plan) (ei_apps ei))
            (pl_envInfos plan))
  ∧ (∃ envs w3,
       fst (getEnvs w) = Ok envs
       ∧ fst (getRansomServices (asked w (mkRequest GET envsURL None)))
         = Ok (pl_services plan)
       ∧ w3 = asked (asked (asked w (mkRequest GET envsURL None))
                       (mkRequest GET servicesURL None))
                (mkRequest POST ruleSetsURL
                   (Some (ruleSetPayload
                            ("Auto Deny Rules - "
                             +:+ Format "Jan 02, 2006 15:04:05" (clock w)))))
       ∧ pl_envInfos plan = omap nonEmptySet (appSets envs w3)
       ∧ pl_totalQueries plan
         = sumZ (map (fun x => match snd x with
                               | Ok apps => queriesFor (pl_services plan) apps
                               | Err _ => 0%Z
                               end) (appSets envs w3)))
  ∧ Forall (fun ei => ei_apps ei ≠ []) (pl_envInfos plan)
  ∧ totalQueries s = pl_totalQueries plan
  ∧ (∀ gi ai, Launched gi ai ∈ history s ->
       ∃ g, groups plan !! gi = Some g ∧ fst g ∈ pl_envInfos plan
            ∧ ai < length (ei_apps (fst g)) ∧ ei_apps (fst g) ≠ []).
Proof.
  intros Hsetup Hrun Hfit.
  apply mainSetup_plan in Hsetup
    as (envs & w1 & w2 & w3 & w4 & He & Hs & Hr & Hl & Ht & _ & _ & _).
  assert (w1 = asked w (mkRequest GET envsURL None)) as Hw1
    by (rewrite <- getEnvs_world; by rewrite He).
  assert (w2 = asked w1 (mkRequest GET servicesURL None)) as Hw2
    by (rewrite <- getRansomServices_world; by rewrite Hs).
  assert (w3 = asked w2
                 (mkRequest POST ruleSetsURL
                    (Some (ruleSetPayload
                             ("Auto Deny Rules - "
                              +:+ Format "Jan 02, 2006 15:04:05" (clock w2))))))
    as Hw3 by (rewrite <- createRuleset_world; by rewrite Hr).
  assert (clock w2 = clock w) as Hclock by (by rewrite Hw2, Hw1).
  rewrite Hclock in Hw3.
  assert (pl_envInfos plan = fst (loadEnvInfos envs w3)) as Hei
    by (by rewrite Hl).
  assert (pl_totalQueries plan
          = sumZ (map (fun ei => queriesFor (pl_services plan) (ei_apps ei))
                    (pl_envInfos plan))) as Htot
    by (rewrite Ht; by apply countQueries_exact).
  assert (Forall (fun ei => ei_apps ei ≠ []) (pl_envInfos plan)) as Hne
    by (rewrite Hei; apply loadEnvInfos_nonempty).
  assert (Inv plan s) as HI
    by (apply (Inv_reachable Format); by exists acts).
  split; [done|]. split; [|split; [done|split]].
  - exists envs, w3. rewrite He. split; [done|].
    split; [by rewrite <- Hw1, Hs|].
    split; [by rewrite Hw3, Hw2, Hw1|].
    rewrite Hei, loadEnvInfos_appSets. split; [done|].
    rewrite Htot, Hei, loadEnvInfos_appSets. apply sumZ_kept.
  - apply HI.
  - intros gi ai Hl'. pose proof (inv_launched _ _ HI _ _ Hl') as Hlt.
    pose proof (appsAt_lt _ _ _ Hlt) as Hgi.
    apply lookup_lt_is_Some in Hgi as [g Hg].
    rewrite (appsAt_lookup _ _ _ Hg) in Hlt.
    exists g. split; [done|].
    assert (g.1 ∈ pl_envInfos plan) as Hin.
    { apply list_elem_of_lookup_2 in Hg. unfold groups, groupsOf in Hg.
      apply list_elem_of_bind in Hg as (ei & Hg & Hei').
      apply list_elem_of_bind in Hg as (svc & Hg & _).
      apply list_elem_of_singleton in Hg. by subst g. }
    split; [done|]. split; [done|].
    rewrite Forall_forall in Hne. by apply Hne.
Qed.

(** C10. A poll that reports completed without a numeric flows_count (the
    field absent, or not a number) counts as zero flows: the query returns
    "no flows" and no error.  When both windows complete that way the
    verdict on the triple is (true, nil), and the verification step of the
    orchestrator then puts the application on the no-traffic list of its
    group, from which the deny rule is made. *)
Theorem completed_without_count envHref appHref service xb xm
    w last1 ns1 fs1 last2 ns2 fs2 :
  completesWith (net w) (fires w) last1 ns1 fs1 ->
  asFloat64 (last1 !! "flows_count") = None ->
  completesWith ns1 fs1 last2 ns2 fs2 ->
  asFloat64 (last2 !! "flows_count") = None ->
  flowsCountOf last1 = 0%Q
  ∧ fst (runSingleAsyncQuery queryURL
           (payload24h Format envHref appHref service xb xm (clock w)) w)
    = Ok false
  ∧ goPair (fst (submitTrafficQuery Format envHref appHref service xb xm w))
    = (true, None)
  ∧ (∀ plan s k t g,
       querying s !! k = Some t -> groups plan !! t_group t = Some g ->
       envHref = Href (ei_env (fst g)) -> appHref = Href (t_app t) ->
       service = snd g -> xb = excludeBroadcast (pl_flags plan) ->
       xm = excludeMulticast (pl_flags plan) ->
       ∃ s', step Format plan (AVerify k w) s = Some s'
             ∧ appsNoTraffic s' = appsNoTraffic s ++ [t_app t]).
Proof.
  intros Hc1 Hn1 Hc2 Hn2.
  assert (flowsCountOf last1 = 0%Q) as Hz1
    by (unfold flowsCountOf; by rewrite Hn1).
  assert (flowsCountOf last2 = 0%Q) as Hz2
    by (unfold flowsCountOf; by rewrite Hn2).
  destruct (runSingleAsyncQuery_complete queryURL
              (payload24h Format envHref appHref service xb xm (clock w))
              w _ _ _ Hc1) as (w1 & Hr1 & Hnet1 & Hf1 & _).
  rewrite Hz1 in Hr1. change (gt0 0) with false in Hr1.
  rewrite <- Hnet1, <- Hf1 in Hc2.
  destruct (runSingleAsyncQuery_complete queryURL
              (payload89d Format envHref appHref service xb xm (clock w))
              w1 _ _ _ Hc2) as (w2 & Hr2 & _).
  rewrite Hz2 in Hr2. change (gt0 0) with false in Hr2.
  assert (fst (submitTrafficQuery Format envHref appHref service xb xm w)
          = Ok true) as Hv
    by (rewrite submitTrafficQuery_run, Hr1, Hr2; reflexivity).
  split; [done|]. split; [by rewrite Hr1|]. split; [by rewrite Hv|].
  intros plan s k t g Ht Hg -> -> -> -> ->. eexists. split.
  - unfold step. rewrite Ht. simpl. rewrite Hg. simpl.
    destruct (pc s) eqn:E; rewrite <- E; reflexivity.
  - simpl. by rewrite Hv.
Qed.

End RunProofs.

(** * A worked run

    The scenario of the specification: environment PROD ([/e1]), service
    RDP ([/s1], port 3389 over TCP), applications web ([/a1]) and db
    ([/a2]). *)

Definition stamp (layout : string) (t : Z) : string :=
  layout +:+ "@" +:+ pretty t.

Definition noJSON {A : Type} : result A := Err "json: cannot unmarshal".

Definition objectBody (kvs : list (string * GoVal)) : Body :=
  mkBody (Ok (list_to_map kvs)) noJSON noJSON noJSON noJSON.
Definition labelsBody (l : list Label) : Body :=
  mkBody noJSON (Ok l) noJSON noJSON noJSON.
Definition servicesBody (l : list Service) : Body :=
  mkBody noJSON noJSON (Ok l) noJSON noJSON.
Definition workloadsBody (l : list (list Label)) : Body :=
  mkBody noJSON noJSON noJSON (Ok l) noJSON.
Definition ipListsBody (l : list IPList) : Body :=
  mkBody noJSON noJSON noJSON noJSON (Ok l).

Definition prod : Label := mkLabel "/e1" "env" "PROD".
Definition staging : Label := mkLabel "/e2" "env" "STAGING".
Definition web : Label := mkLabel "/a1" "app" "web".
Definition db : Label := mkLabel "/a2" "app" "db".
Definition rdp : Service := mkService "/s1" "RDP" [mkServicePort 3389 6 0].
Definition anyIPList : IPList :=
  mkIPList "/orgs/123/sec_policy/draft/ip_lists/1" targetIPListName.

Definition submitted (href : string) : reply :=
  Answer (objectBody [("href", VStr href)]).
Definition pending : reply :=
  Answer (objectBody [("status", VStr "pending")]).
Definition completed (flows : Q) : reply :=
  Answer (objectBody [("status", VStr "completed"); ("flows_count", VFloat flows)]).
Definition completedBare : reply :=
  Answer (objectBody [("status", VStr "completed")]).

(** Both windows silent: the 24-hour job completes on the second poll. *)
Definition silentWorld : World :=
  mkWorld 1700000000000000000
    [submitted "/q/1"; pending; completed 0; submitted "/q/2"; completed 0]
    [TickerC; TickerC; TickerC] [].

(** Five flows in the short window. *)
Definition busyWorld : World :=
  mkWorld 1700000000000000000
    [submitted "/q/1"; completed 5; submitted "/q/2"; completed 0]
    [TickerC; TickerC] [].

(** The job never completes: three polls, then the timer. *)
Definition stuckWorld : World :=
  mkWorld 1700000000000000000
    [submitted "/q/1"; pending; pending; pending; pending]
    [TickerC; TickerC; TickerC; TimeoutC; TickerC] [].

(** Both jobs complete without a flows_count. *)
Definition bareWorld : World :=
  mkWorld 1700000000000000000
    [submitted "/q/1"; completedBare; submitted "/q/2"; completedBare]
    [TickerC; TickerC] [].

(** The catalog: PROD with two workloads, STAGING with none. *)
Definition catalogWorld : World :=
  mkWorld 1700000000000000000
    [Answer (labelsBody [prod; staging]);
     Answer (servicesBody [rdp]);
     Answer (objectBody [("href", VStr "/orgs/123/sec_policy/draft/rule_sets/9")]);
     Answer (workloadsBody [[prod; web]; [prod; db]; [prod; web]]);
     Answer (workloadsBody []);
     Answer (ipListsBody [anyIPList])]
    [] [].

Definition demoFlags : Flags := mkFlags false false false.

Definition emptyPlan : Plan := mkPlan demoFlags [] "" [] 0 "".

Definition demoPlan : Plan :=
  Eval vm_compute in
    match fst (mainSetup stamp demoFlags catalogWorld) with
    | inr plan => plan
    | inl _ => emptyPlan
    end.

(** The answer to a deny-rule creation. *)
Definition createdWorld : World :=
  mkWorld 1700000000000000000
    [Answer (objectBody [("href", VStr "/orgs/123/sec_policy/draft/rule_sets/9/deny_rules/1")])]
    [] [].

(** Both applications are launched; the first verification times out, the
    second finds both windows silent; the group is joined and its rule
    created. *)
Definition demoRun : list action :=
  [ALaunch; ALaunch; AVerify 0 stuckWorld; AVerify 0 silentWorld;
   ARelease 0; ARelease 0; AFinish 0; AFinish 0; AJoin;
   ACreate createdWorld; AReturn].

Definition demoFinal : State :=
  Eval vm_compute in
    match exec stamp demoPlan demoRun (initial demoPlan) with
    | Some s => s
    | None => initial demoPlan
    end.

Example demoPlan_made :
  fst (mainSetup stamp demoFlags catalogWorld) = inr demoPlan
  ∧ pl_totalQueries demoPlan = 2%Z
  ∧ ei_env <$> pl_envInfos demoPlan = [prod].
Proof. vm_compute. done. Qed.

Example demoRun_runs :
  exec stamp demoPlan demoRun (initial demoPlan) = Some demoFinal
  ∧ pc demoFinal = Finished
  ∧ length (history demoFinal) = 6.
Proof. vm_compute. done. Qed.

Example silentWorld_verdict :
  goPair (fst (submitTrafficQuery stamp "/e1" "/a1" rdp false false silentWorld))
  = (true, None).
Proof. vm_compute. reflexivity. Qed.

Example busyWorld_verdict :
  goPair (fst (submitTrafficQuery stamp "/e1" "/a1" rdp false false busyWorld))
  = (false, None)
  ∧ net (snd (submitTrafficQuery stamp "/e1" "/a1" rdp false false busyWorld))
    = [submitted "/q/2"; completed 0].
Proof. vm_compute. done. Qed.

Example stuckWorld_verdict :
  goPair (fst (submitTrafficQuery stamp "/e1" "/a1" rdp false false stuckWorld))
  = (false, Some errTimeout).
Proof. vm_compute. reflexivity. Qed.

(** ** The theorems at work on the scenario *)


Lemma join_barrier_witness :
  exec stamp demoPlan demoRun (initial demoPlan) = Some demoFinal
  ∧ ∀ ai, ai < length (appsAt demoPlan 0) ->
      ∃ r, Verified 0 ai r
             ∈ [Verified 0 1 (Ok true); Verified 0 0 (Err errTimeout);
                Launched 0 1; Launched 0 0].
Proof.
  assert (exec stamp demoPlan demoRun (initial demoPlan) = Some demoFinal)
    as Hrun by (vm_compute; reflexivity).
  split; [exact Hrun|].
  exact (proj1 (join_barrier stamp demoPlan demoRun demoFinal Hrun)
           [RuleRequested (mkDenyRuleInfo prod rdp [db]) (Ok tt)]
           0 [db]
           [Verified 0 1 (Ok true); Verified 0 0 (Err errTimeout);
            Launched 0 1; Launched 0 0]
           eq_refl).
Defined.

Lemma verification_error_contained_witness :
  exec stamp demoPlan demoRun (initial demoPlan) = Some demoFinal
  ∧ (NoDup (appsAt demoPlan 0) -> web ∉ [db]).
Proof.
  assert (exec stamp demoPlan demoRun (initial demoPlan) = Some demoFinal)
    as Hrun by (vm_compute; reflexivity).
  split; [exact Hrun|].
  refine (proj1 (proj2 (verification_error_contained stamp demoPlan demoRun
                          demoFinal Hrun))
            0 0 errTimeout [db] web _ _ eq_refl).
  - vm_compute. do 3 right. left.
  - vm_compute. right. left.
Defined.

Lemma in_flight_bound_witness :
  exec stamp demoPlan (take 2 demoRun) (initial demoPlan) ≠ None
  ∧ inFlight (default (initial demoPlan)
                (exec stamp demoPlan (take 2 demoRun) (initial demoPlan))) ≤ 2.
Proof.
  split; [vm_compute; discriminate|].
  refine (proj1 (in_flight_bound stamp demoPlan (take 2 demoRun) _ _)).
  vm_compute. reflexivity.
Defined.

Lemma progress_total_witness :
  mainSetup stamp demoFlags catalogWorld
  = (inr demoPlan, snd (mainSetup stamp demoFlags catalogWorld))
  ∧ pl_totalQueries demoPlan
    = sumZ (map (fun ei => queriesFor (pl_services demoPlan) (ei_apps ei))
              (pl_envInfos demoPlan))
  ∧ (∃ envs w3,
       fst (getEnvs catalogWorld) = Ok envs
       ∧ fst (getRansomServices
                (asked catalogWorld (mkRequest GET envsURL None)))
         = Ok (pl_services demoPlan)
       ∧ w3 = asked (asked (asked catalogWorld (mkRequest GET envsURL None))
                       (mkRequest GET servicesURL None))
                (mkRequest POST ruleSetsURL
                   (Some (ruleSetPayload
                            ("Auto Deny Rules - "
                             +:+ stamp "Jan 02, 2006 15:04:05"
                                   (clock catalogWorld)))))
       ∧ pl_envInfos demoPlan = omap nonEmptySet (appSets envs w3)
       ∧ pl_totalQueries demoPlan
         = sumZ (map (fun x => match snd x with
                               | Ok apps => queriesFor (pl_services demoPlan) apps
                               | Err _ => 0%Z
                               end) (appSets envs w3)))
  ∧ pl_totalQueries demoPlan = 2%Z.
Proof.
  assert (mainSetup stamp demoFlags catalogWorld
          = (inr demoPlan, snd (mainSetup stamp demoFlags catalogWorld)))
    as Hsetup by (vm_compute; reflexivity).
  assert (exec stamp demoPlan demoRun (initial demoPlan) = Some demoFinal)
    as Hrun by (vm_compute; reflexivity).
  split; [exact Hsetup|].
  destruct (progress_total stamp demoFlags catalogWorld demoPlan _
              demoRun demoFinal Hsetup Hrun ltac:(vm_compute; reflexivity))
    as (Htotal & Hsets & _).
  split; [exact Htotal|]. split; [exact Hsets|].
  vm_compute. reflexivity.
Defined.

Lemma completed_without_count_witness :
  goPair (fst (submitTrafficQuery stamp "/e1" "/a1" rdp false false bareWorld))
  = (true, None).
Proof.
  refine (proj1 (proj2 (proj2
    (completed_without_count stamp "/e1" "/a1" rdp false false bareWorld
       (list_to_map [("status", VStr "completed")])
       [submitted "/q/2"; completedBare] [TickerC]
       (list_to_map [("status", VStr "completed")])
       [] [] _ _ _ _)))).
  - exists (submitted "/q/1"), [completedBare; submitted "/q/2"; completedBare].
    split; [reflexivity|]. split; [vm_compute; eauto|].
    apply polled_done; vm_compute; reflexivity.
  - vm_compute. reflexivity.
  - exists (submitted "/q/2"), [completedBare].
    split; [reflexivity|]. split; [vm_compute; eauto|].
    apply polled_done; vm_compute; reflexivity.
  - vm_compute. reflexivity.
Defined.

(** ** Where the code departs from the specification *)





(** The workloads of PROD cannot be loaded; those of STAGING can. *)
Definition partialWorld : World :=
  mkWorld 1700000000000000000
    [Answer (labelsBody [prod; staging]);
     Answer (servicesBody [rdp]);
     Answer (objectBody [("href", VStr "/orgs/123/sec_policy/draft/rule_sets/9")]);
     Unreachable "HTTP 500: internal error";
     Answer (workloadsBody [[staging; db]]);
     Answer (ipListsBody [anyIPList])]
    [] [].

Lemma failed_app_set_is_skipped :
  net partialWorld !! 3 = Some (Unreachable "HTTP 500: internal error")
  ∧ ∃ plan, fst (mainSetup stamp demoFlags partialWorld) = inr plan
            ∧ pl_envInfos plan = [mkEnvInfo staging [db]]
            ∧ pl_totalQueries plan = 1%Z.
Proof. split; [reflexivity|]. eexists. vm_compute. done. Qed.

(** Three applications in one group, under every setting of the flags
    [main] reads: two launches go through, the third does not. *)
Definition allFlags : list Flags :=
  b ← [false; true]; m ← [false; true]; v ← [false; true]; [mkFlags b m v].

Definition widePlan (flags : Flags) : Plan :=
  mkPlan flags [rdp] "/orgs/123/sec_policy/draft/rule_sets/9"
    [mkEnvInfo prod [web; db; mkLabel "/a3" "app" "cache"]] 3
    (ipHref anyIPList).

Lemma cap_is_not_configurable :
  Forall (fun flags =>
            is_Some (exec stamp (widePlan flags) [ALaunch; ALaunch]
                       (initial (widePlan flags)))
            ∧ exec stamp (widePlan flags) [ALaunch; ALaunch; ALaunch]
                (initial (widePlan flags)) = None)
         allFlags.
Proof.
  repeat (apply Forall_cons_2; [split; [vm_compute; eauto | vm_compute; reflexivity]|]).
  apply Forall_nil_2.
Qed.

(** * More of the program

    Properties of the same code beyond the statements above. *)

(** ** How a query ends *)

(** What a poll returns when it brings no object. *)
Inductive pollFails : list reply -> error -> list reply -> Prop :=
  | pollFails_unreachable e ns :
      pollFails (Unreachable e :: ns)
        ("apiRequest failed after 3 retries: " +:+ e) ns
  | pollFails_garbled b e ns :
      asObject b = Err e -> pollFails (Answer b :: ns) e ns
  | pollFails_silent :
      pollFails [] "apiRequest failed after 3 retries: no answer" [].

(** [aborts ns fs e ns' fs']: every tick is answered by a poll that is not
    completed, until a poll fails with [e].  [ns'] and [fs'] are left. *)
Inductive aborts :
    list reply -> list chan -> error -> list reply -> list chan -> Prop :=
  | aborts_here ns fs e ns' :
      pollFails ns e ns' -> aborts ns (TickerC :: fs) e ns' fs
  | aborts_wait r m ns fs e ns' fs' :
      pollObject r = Some m -> statusOf m ≠ "completed" ->
      aborts ns fs e ns' fs' ->
      aborts (r :: ns) (TickerC :: fs) e ns' fs'.

Lemma pollLoop_fail href fs w e ns' :
  pollFails (net w) e ns' ->
  pollLoop href (TickerC :: fs) w
  = (Err e, mkWorld (clock w) ns' fs
              (Request (mkRequest GET (pollURL href) None)
                 :: Recv TickerC :: trace w)).
Proof.
  intros H. cbn [pollLoop]. rewrite bind_run. cbn [recv]. rewrite bind_run.
  unfold apiRequestWithRetry. cbn [net clock fires trace].
  inversion H as [e' ns Hn | b e' ns Hb Hn | Hn]; subst; cbn [tail].
  - reflexivity.
  - rewrite bind_run. unfold lift. rewrite Hb. reflexivity.
  - reflexivity.
Qed.

Lemma pollLoop_aborts href ns fs e ns' fs' :
  aborts ns fs e ns' fs' ->
  ∀ w, net w = ns ->
  ∃ tr, pollLoop href fs w
        = (Err e, mkWorld (clock w) ns' fs'
                    (Request (mkRequest GET (pollURL href) None)
                       :: Recv TickerC :: tr)).
Proof.
  induction 1 as [ns fs e ns' Hf | r m ns fs e ns' fs' Hp Hs _ IH];
    intros w Hn.
  - rewrite <- Hn in Hf. rewrite (pollLoop_fail _ _ _ _ _ Hf). eauto.
  - apply pollObject_Some in Hp as (b & -> & Hb).
    rewrite (pollLoop_tick _ _ _ _ _ _ Hn Hb). cbn zeta.
    rewrite decide_False by done.
    destruct (IH (mkWorld (clock w) ns fs
                    (Request (mkRequest GET (pollURL href) None)
                       :: Recv TickerC :: trace w)) eq_refl) as [tr ->].
    eauto.
Qed.

(** Every outcome list and schedule is of one of three kinds. *)
Lemma polling_cases ns fs :
  (∃ last ns' fs', polled ns fs last ns' fs')
  ∨ timesOut ns fs
  ∨ (∃ e ns' fs', aborts ns fs e ns' fs').
Proof.
  revert ns. induction fs as [|c fs IH]; intros ns.
  - right. left. constructor.
  - destruct c; [right; left; constructor|].
    destruct ns as [|r ns].
    + right. right. do 3 eexists. apply aborts_here. constructor.
    + destruct (pollObject r) as [m|] eqn:Hp.
      * destruct (decide (statusOf m = "completed")) as [Hs|Hs].
        -- left. do 3 eexists. by eapply polled_done.
        -- destruct (IH ns) as [(last & ns' & fs' & H) | [H | (e & ns' & fs' & H)]].
           ++ left. do 3 eexists. by eapply polled_wait.
           ++ right. left. by eapply timesOut_wait.
           ++ right. right. do 3 eexists. by eapply aborts_wait.
      * right. right. destruct r as [e|b].
        -- do 3 eexists. apply aborts_here. constructor.
        -- simpl in Hp. destruct (asObject b) as [m|e] eqn:Hb; [discriminate|].
           do 3 eexists. apply aborts_here. by constructor.
Qed.

(** X1. A submission whose answer carries no handle (no "href", one that
    is not a string, or the empty string) ends the query with the error
    "query failed to return href": one request was made, no timer was set,
    no poll was made and the schedule is untouched. *)
Theorem submission_without_handle url payload w b ns m :
  net w = Answer b :: ns -> asObject b = Ok m ->
  asString (m !! "href") = None ∨ asString (m !! "href") = Some "" ->
  runSingleAsyncQuery url payload w
  = (Err errNoHref,
     mkWorld (clock w) ns (fires w)
       (Request (mkRequest POST url (Some payload)) :: trace w)).
Proof.
  intros Hn Hb Hh. unfold runSingleAsyncQuery. rewrite bind_run.
  erewrite apiRequestWithRetry_answer by exact Hn.
  rewrite bind_run. unfold lift. rewrite Hb.
  destruct Hh as [-> | ->]; reflexivity.
Qed.

Lemma runSingleAsyncQuery_aborts url payload w sub rest href e ns' fs' :
  net w = sub :: rest -> jobHref sub = Some href ->
  aborts rest (fires w) e ns' fs' ->
  ∃ tr, runSingleAsyncQuery url payload w
        = (Err e, mkWorld (clock w) ns' fs'
                    (Stop :: Request (mkRequest GET (pollURL href) None)
                       :: Recv TickerC :: tr)).
Proof.
  intros Hn Hj Ha.
  rewrite (runSingleAsyncQuery_submitted _ _ _ _ _ _ Hn Hj). cbn zeta.
  destruct (pollLoop_aborts href _ _ _ _ _ Ha
              (mkWorld (clock w) rest (fires w)
                 (NewTicker (5 * Second) :: After (5 * Minute)
                    :: Request (mkRequest POST url (Some payload)) :: trace w))
              eq_refl) as [tr ->].
  eauto.
Qed.

(** X2. A poll that fails (the transport gives up, or the body is not an
    object) ends the query at once with that error: the failed poll is the
    last request, only the ticker's stop follows it, and the outcomes and
    ticks after it are left unused. *)
Theorem poll_failure_aborts url payload w sub rest href e ns' fs' :
  net w = sub :: rest -> jobHref sub = Some href ->
  aborts rest (fires w) e ns' fs' ->
  ∃ tr, runSingleAsyncQuery url payload w
        = (Err e, mkWorld (clock w) ns' fs'
                    (Stop :: Request (mkRequest GET (pollURL href) None)
                       :: Recv TickerC :: tr)).
Proof. apply runSingleAsyncQuery_aborts. Qed.

(** X3. A query ends in one of four ways and no other: the submission
    brought no handle and the result is an error; or the job was polled to
    a completed answer and the result is whether its flow count is above
    zero; or the timer was taken first and the result is the time-out
    error; or a poll failed and the result is its error. *)
Theorem query_ends url payload w :
  ((hd_error (net w) ≫= jobHref) = None
   ∧ ∃ e, fst (runSingleAsyncQuery url payload w) = Err e)
  ∨ (∃ last ns' fs',
       completesWith (net w) (fires w) last ns' fs'
       ∧ fst (runSingleAsyncQuery url payload w) = Ok (gt0 (flowsCountOf last)))
  ∨ (timesOut (tail (net w)) (fires w)
     ∧ fst (runSingleAsyncQuery url payload w) = Err errTimeout)
  ∨ (∃ e ns' fs',
       aborts (tail (net w)) (fires w) e ns' fs'
       ∧ fst (runSingleAsyncQuery url payload w) = Err e).
Proof.
  destruct (hd_error (net w) ≫= jobHref) as [href|] eqn:Hj.
  - destruct (net w) as [|sub rest] eqn:Hn; [discriminate|]. simpl in Hj.
    right. simpl tail.
    destruct (polling_cases rest (fires w))
      as [(last & ns' & fs' & H) | [H | (e & ns' & fs' & H)]].
    + left. exists last, ns', fs'.
      assert (completesWith (net w) (fires w) last ns' fs') as Hc
        by (rewrite Hn; exists sub, rest; eauto).
      rewrite <- Hn. split; [done|].
      destruct (runSingleAsyncQuery_complete url payload w _ _ _ Hc)
        as (w' & -> & _). done.
    + right. left. split; [done|].
      eapply runSingleAsyncQuery_timesOut; eauto.
    + right. right. exists e, ns', fs'. split; [done|].
      destruct (runSingleAsyncQuery_aborts url payload w _ _ _ _ _ _ Hn Hj H)
        as [tr ->]. done.
  - left. split; [done|].
    destruct (runSingleAsyncQuery_rejected url payload w Hj) as [e ->]. eauto.
Qed.

(** ** What the verifier sends *)

Lemma did_trans w w1 w2 evs1 evs2 :
  did w w1 evs1 -> did w1 w2 evs2 -> did w w2 (evs1 ++ evs2).
Proof.
  unfold did. intros H1 H2. rewrite H2, H1, rev_app_distr.
  by rewrite <- app_assoc.
Qed.

Lemma submissions_app evs1 evs2 :
  submissions (evs1 ++ evs2) = submissions evs1 ++ submissions evs2.
Proof. unfold submissions. apply omap_app. Qed.

Lemma runSingleAsyncQuery_submissions url p w :
  ∃ evs, did w (snd (runSingleAsyncQuery url p w)) evs
         ∧ submissions evs = [mkRequest POST url (Some p)].
Proof.
  destruct (runSingleAsyncQuery_events url p w) as (evs & Hd & Hev).
  exists evs. split; [done|].
  destruct Hev as [-> | (href & polls & -> & Hp)]; [reflexivity|].
  simpl. by rewrite (submissions_polling _ _ Hp).
Qed.

Section VerifierMore.

Variable Format : string -> Z -> string.

(** X4. What [submitTrafficQuery] submits: the 24-hour query always, first;
    the 89-day query after it exactly when the 24-hour query returned "no
    flows" without an error; nothing else.  An error in the short window,
    like traffic in it, leaves the long window unqueried. *)
Theorem window_submissions envHref appHref service xb xm w :
  ∃ evs,
    did w (snd (submitTrafficQuery Format envHref appHref service xb xm w)) evs
    ∧ submissions evs
      = mkRequest POST queryURL
          (Some (payload24h Format envHref appHref service xb xm (clock w)))
        :: match fst (runSingleAsyncQuery queryURL
                        (payload24h Format envHref appHref service xb xm
                           (clock w)) w) with
           | Ok false =>
               [mkRequest POST queryURL
                  (Some (payload89d Format envHref appHref service xb xm
                           (clock w)))]
           | _ => []
           end.
Proof.
  rewrite submitTrafficQuery_run.
  destruct (runSingleAsyncQuery_submissions queryURL
              (payload24h Format envHref appHref service xb xm (clock w)) w)
    as (evs1 & Hd1 & Hs1).
  destruct (runSingleAsyncQuery queryURL
              (payload24h Format envHref appHref service xb xm (clock w)) w)
    as [[[|]|err] w1]; simpl in Hd1 |- *; try (exists evs1; by rewrite Hs1).
  destruct (runSingleAsyncQuery_submissions queryURL
              (payload89d Format envHref appHref service xb xm (clock w)) w1)
    as (evs2 & Hd2 & Hs2).
  exists (evs1 ++ evs2). rewrite submissions_app, Hs1, Hs2. split; [|done].
  apply (did_trans _ w1); [done|].
  destruct (runSingleAsyncQuery queryURL
              (payload89d Format envHref appHref service xb xm (clock w)) w1)
    as [[[|]|err] w2]; exact Hd2.
Qed.

(** X5. The payloads of the two windows are one map but for the value of
    "start_date": 24 hours, respectively 89 days, before the end date,
    which is the time of the call in both.  In both the destinations are
    the one pair of the environment and the application, and the
    destination exclusions list broadcast when asked to and multicast when
    asked to, in this order, and nothing when neither is. *)
Theorem window_payloads envHref appHref service xb xm now :
  ∃ m24 m89,
    payload24h Format envHref appHref service xb xm now = VMap m24
    ∧ payload89d Format envHref appHref service xb xm now = VMap m89
    ∧ m89 = <["start_date" := VStr (Format RFC3339 (now + (-89) * 24 * Hour))]> m24
    ∧ m24 !! "start_date" = Some (VStr (Format RFC3339 (now + (-24) * Hour)))
    ∧ m24 !! "end_date" = Some (VStr (Format RFC3339 now))
    ∧ (∀ k, k ≠ "start_date" -> m89 !! k = m24 !! k)
    ∧ (m24 !! "destinations" ≫= field "include")
      = Some (VSlice [VSlice [labelRef envHref; labelRef appHref]])
    ∧ (m24 !! "destinations" ≫= field "exclude")
      = Some (buildDestExclusions xb xm)
    ∧ buildDestExclusions xb xm
      = VSlice ((if xb then [goMap [("transmission", VStr "broadcast")]] else [])
                ++ (if xm then [goMap [("transmission", VStr "multicast")]] else [])).
Proof.
  unfold payload24h, payload89d, queryPayload. unfold goMap at 1 5.
  eexists _, _. split; [reflexivity|]. split; [reflexivity|].
  rewrite !list_to_map_cons.
  match goal with
  | |- ?m89 = <[_ := _]> ?m24 ∧ _ =>
      assert (∀ k, k ≠ "start_date" -> m89 !! k = m24 !! k) as Hsame
  end.
  { intros k Hk. rewrite !lookup_insert.
    repeat (case_decide; [done|]). done. }
  split.
  { apply map_eq. intros k. destruct (decide (k = "start_date")) as [->|Hk].
    - rewrite lookup_insert_eq.
      repeat (rewrite lookup_insert_ne by done). by rewrite lookup_insert_eq.
    - rewrite (lookup_insert_ne _ "start_date") by done. by apply Hsame. }
  split.
  { repeat (rewrite lookup_insert_ne by done). by rewrite lookup_insert_eq. }
  split.
  { repeat (rewrite lookup_insert_ne by done). by rewrite lookup_insert_eq. }
  split; [exact Hsame|].
  split.
  { rewrite lookup_insert_ne by done. rewrite lookup_insert_eq. reflexivity. }
  split.
  { rewrite lookup_insert_ne by done. rewrite lookup_insert_eq. reflexivity. }
  destruct xb, xm; reflexivity.
Qed.

End VerifierMore.

(** ** The application set of an environment *)

(** The last label of [labels] that is an application label with handle
    [h]. *)
Definition lastApp (h : string) (labels : list Label) : option Label :=
  last (filter (fun l => Key l = "app" ∧ Href l = h) labels).

Lemma lastApp_cons h x labels :
  lastApp h (x :: labels)
  = match lastApp h labels with
    | Some a => Some a
    | None => if decide (Key x = "app" ∧ Href x = h) then Some x else None
    end.
Proof.
  unfold lastApp. rewrite filter_cons. case_decide; [apply last_cons|].
  by destruct (last _).
Qed.

Lemma foldl_apps_lookup labels : ∀ (m : gmap string Label) h,
  foldl (fun uniqueApps l =>
           if decide (Key l = "app")
           then <[Href l := l]> uniqueApps
           else uniqueApps) m labels !! h
  = match lastApp h labels with
    | Some a => Some a
    | None => m !! h
    end.
Proof.
  induction labels as [|x labels IH]; intros m h; [done|].
  cbn [foldl]. rewrite IH, lastApp_cons.
  destruct (lastApp h labels) as [a|]; [done|].
  destruct (decide (Key x = "app")) as [Hk|Hk].
  - rewrite lookup_insert. destruct (decide (Href x = h)) as [Hh|Hh].
    + by rewrite decide_True.
    + rewrite decide_False by tauto. done.
  - rewrite decide_False by tauto. done.
Qed.

Lemma collectApps_concat workloads :
  collectApps workloads
  = foldl (fun uniqueApps l =>
             if decide (Key l = "app")
             then <[Href l := l]> uniqueApps
             else uniqueApps) ∅ (concat workloads).
Proof.
  unfold collectApps. generalize (∅ : gmap string Label).
  induction workloads as [|ls ws IH]; intros m; [done|].
  cbn [foldl concat]. rewrite foldl_app. apply IH.
Qed.

Lemma collectApps_lookup workloads h :
  collectApps workloads !! h = lastApp h (concat workloads).
Proof.
  rewrite collectApps_concat, foldl_apps_lookup, lookup_empty.
  by destruct (lastApp _ _).
Qed.

Lemma lastApp_Some h labels a :
  lastApp h labels = Some a -> Key a = "app" ∧ Href a = h ∧ a ∈ labels.
Proof.
  unfold lastApp. intros H%last_Some_elem_of.
  apply list_elem_of_filter in H. tauto.
Qed.

Lemma getWorkloadsForEnv_answer env w b ns workloads :
  net w = Answer b :: ns -> asWorkloads b = Ok workloads ->
  fst (getWorkloadsForEnv env w) = Ok ((map_to_list (collectApps workloads)).*2).
Proof.
  intros Hn Hb. unfold getWorkloadsForEnv. rewrite bind_run. unfold wrapErr at 1.
  erewrite apiRequestWithRetry_answer by exact Hn.
  rewrite bind_run. unfold wrapErr, lift. rewrite Hb. reflexivity.
Qed.

(** X6. The application set [getWorkloadsForEnv] returns for an answered
    listing: its handles are pairwise distinct; it holds a label exactly
    when that label is the last application label with its handle among
    the labels of the workloads, in the order listed; so every label in it
    is an application label of some workload, labels with another key are
    left out, and every application handle that occurs on a workload is
    represented. *)
Theorem app_set_deduplicated env w b ns workloads :
  net w = Answer b :: ns -> asWorkloads b = Ok workloads ->
  ∃ apps,
    fst (getWorkloadsForEnv env w) = Ok apps
    ∧ NoDup (Href <$> apps)
    ∧ (∀ a, a ∈ apps ↔ lastApp (Href a) (concat workloads) = Some a)
    ∧ (∀ a, a ∈ apps -> Key a = "app" ∧ a ∈ concat workloads)
    ∧ (∀ l, l ∈ concat workloads -> Key l = "app" ->
         ∃ a, a ∈ apps ∧ Href a = Href l).
Proof.
  intros Hn Hb. eexists. split; [by eapply getWorkloadsForEnv_answer|].
  set (m := collectApps workloads).
  assert (∀ a, a ∈ (map_to_list m).*2
               ↔ lastApp (Href a) (concat workloads) = Some a) as Hmem.
  { intros a. rewrite <- collectApps_lookup. fold m. split.
    - intros ([k a'] & -> & Hin%elem_of_map_to_list)%list_elem_of_fmap.
      simpl. by rewrite (collectApps_keys _ _ _ Hin).
    - intros H. apply list_elem_of_fmap. exists (Href a, a).
      split; [done|]. by apply elem_of_map_to_list. }
  split; [|split; [done|split]].
  - replace (Href <$> (map_to_list m).*2) with ((map_to_list m).*1);
      [apply NoDup_fst_map_to_list|].
    rewrite <- list_fmap_compose. apply list_fmap_ext.
    intros i [k a] Hi%list_elem_of_lookup_2%elem_of_map_to_list. simpl.
    symmetry. by eapply collectApps_keys.
  - intros a Ha%Hmem. apply lastApp_Some in Ha. tauto.
  - intros l Hl Hk.
    destruct (lastApp (Href l) (concat workloads)) as [a|] eqn:E.
    + pose proof (lastApp_Some _ _ _ E) as (_ & Hh & _).
      exists a. split; [|done]. apply Hmem. by rewrite Hh.
    + exfalso. unfold lastApp in E. apply last_None in E.
      assert (l ∈ filter (fun l0 => Key l0 = "app" ∧ Href l0 = Href l)
                    (concat workloads)) as Hin
        by (apply list_elem_of_filter; tauto).
      rewrite E in Hin. inversion Hin.
Qed.

Lemma app_set_deduplicated_witness :
  ∃ apps, fst (getWorkloadsForEnv prod
                 (mkWorld 0 [Answer (workloadsBody
                                       [[prod; web]; [prod; db]; [prod; web]])]
                    [] [])) = Ok apps
          ∧ NoDup (Href <$> apps).
Proof.
  destruct (app_set_deduplicated prod
              (mkWorld 0 [Answer (workloadsBody
                                    [[prod; web]; [prod; db]; [prod; web]])]
                 [] [])
              _ _ _ eq_refl eq_refl) as (apps & H1 & H2 & _).
  exists apps. split; assumption.
Defined.

(** A submission answered without a handle; a job whose second poll fails
    while ticks and outcomes remain. *)
Definition unhandledWorld : World :=
  mkWorld 0 [Answer (objectBody [("href", VFloat 17)]); pending] [TickerC] [].

Definition brokenWorld : World :=
  mkWorld 0
    [submitted "/q/1"; pending; Unreachable "HTTP 502: bad gateway";
     completed 0]
    [TickerC; TickerC; TickerC] [].

Lemma submission_without_handle_witness :
  runSingleAsyncQuery queryURL VNil unhandledWorld
  = (Err errNoHref,
     mkWorld 0 [pending] [TickerC]
       [Request (mkRequest POST queryURL (Some VNil))]).
Proof.
  refine (submission_without_handle queryURL VNil unhandledWorld
            (objectBody [("href", VFloat 17)]) [pending]
            (list_to_map [("href", VFloat 17)]) eq_refl eq_refl _).
  left. vm_compute. reflexivity.
Defined.

Lemma poll_failure_aborts_witness :
  ∃ tr, runSingleAsyncQuery queryURL VNil brokenWorld
        = (Err "apiRequest failed after 3 retries: HTTP 502: bad gateway",
           mkWorld 0 [completed 0] [TickerC]
             (Stop :: Request (mkRequest GET (pollURL "/q/1") None)
                :: Recv TickerC :: tr)).
Proof.
  refine (poll_failure_aborts queryURL VNil brokenWorld (submitted "/q/1")
            [pending; Unreachable "HTTP 502: bad gateway"; completed 0]
            "/q/1" _ [completed 0] [TickerC] eq_refl _ _).
  - vm_compute. reflexivity.
  - eapply aborts_wait; [vm_compute; reflexivity | vm_compute; discriminate |].
    apply aborts_here. apply pollFails_unreachable.
Defined.

(** ** What the catalog loader and the synthesizer ask for *)

Lemma createRuleset_answer name w b ns m :
  net w = Answer b :: ns -> asObject b = Ok m ->
  fst (createRuleset name w) = Ok (default "" (asString (m !! "href"))).
Proof.
  intros Hn Hb. unfold createRuleset. rewrite bind_run.
  erewrite apiRequestWithRetry_answer by exact Hn.
  rewrite bind_run. unfold lift. rewrite Hb. reflexivity.
Qed.

(** The listings of the workloads, one per environment. *)
Definition workloadsRequests (envs : list Label) : list event :=
  (fun env => Request (mkRequest GET (workloadsURL env) None)) <$> envs.

Lemma did_asked w r : did w (asked w r) [Request r].
Proof. reflexivity. Qed.

Lemma did_refl w : did w w [].
Proof. reflexivity. Qed.

Lemma loadEnvInfos_frame envs w :
  did w (snd (loadEnvInfos envs w)) (workloadsRequests envs)
  ∧ net (snd (loadEnvInfos envs w)) = drop (length envs) (net w)
  ∧ fires (snd (loadEnvInfos envs w)) = fires w
  ∧ (ei_env <$> fst (loadEnvInfos envs w)) `sublist_of` envs.
Proof.
  revert w. induction envs as [|env rest IH]; intros w.
  - simpl. repeat split; try done.
  - cbn [loadEnvInfos].
    pose proof (getWorkloadsForEnv_world env w) as Hw.
    destruct (getWorkloadsForEnv env w) as [[apps|e] w1]; simpl in Hw; subst w1.
    + destruct (IH (asked w (mkRequest GET (workloadsURL env) None)))
        as (Hd & Hn & Hf & Hs).
      assert (did w (snd (loadEnvInfos rest
                            (asked w (mkRequest GET (workloadsURL env) None))))
                (workloadsRequests (env :: rest))) as Hd'
        by (apply (did_trans _ _ _ [_] _ (did_asked w _) Hd)).
      assert (drop (length rest) (tail (net w))
              = drop (length (env :: rest)) (net w)) as Hdrop
        by (destruct (net w); simpl; [by rewrite ?drop_nil | done]).
      case_decide.
      * split; [exact Hd'|]. split; [rewrite Hn; exact Hdrop|].
        split; [done|]. by apply sublist_cons.
      * destruct (loadEnvInfos rest _) as [eis w2]. simpl in *.
        split; [exact Hd'|]. split; [rewrite Hn; exact Hdrop|].
        split; [done|]. by apply sublist_skip.
    + destruct (IH (asked w (mkRequest GET (workloadsURL env) None)))
        as (Hd & Hn & Hf & Hs).
      split; [apply (did_trans _ _ _ [_] _ (did_asked w _) Hd)|].
      split; [rewrite Hn; simpl; destruct (net w); simpl; [by rewrite ?drop_nil | done]|].
      split; [done|]. by apply sublist_cons.
Qed.

(** X7. The loop that loads the application sets asks for the workloads
    of every environment once, in the order of the environment list,
    whether the listings before failed, were empty or not, and asks for
    nothing else; it uses up one transport outcome per environment; and
    the environments it keeps are a sub-list of the list, in its order. *)
Theorem workloads_listed_once envs w :
  did w (snd (loadEnvInfos envs w)) (workloadsRequests envs)
  ∧ net (snd (loadEnvInfos envs w)) = drop (length envs) (net w)
  ∧ fires (snd (loadEnvInfos envs w)) = fires w
  ∧ (ei_env <$> fst (loadEnvInfos envs w)) `sublist_of` envs.
Proof. apply loadEnvInfos_frame. Qed.


Section SetupMore.

Variable Format : string -> Z -> string.

(** The name [main] gives its rule set. *)
Definition ruleSetName (now : Z) : string :=
  "Auto Deny Rules - " +:+ Format "Jan 02, 2006 15:04:05" now.

(** X8. The rule-set handle [main] works with is the "href" of the answer
    to the creation when that is a string, and the empty string otherwise:
    an answer without a handle does not stop [main], unlike the answer to
    a query submission. *)
Theorem rule_set_handle flags w plan w' r1 r2 b ns m :
  mainSetup Format flags w = (inr plan, w') ->
  net w = r1 :: r2 :: Answer b :: ns -> asObject b = Ok m ->
  pl_rulesetHref plan = default "" (asString (m !! "href")).
Proof.
  intros (envs & w1 & w2 & w3 & w4 & He & Hs & Hr & _)%mainSetup_plan Hn Hb.
  pose proof (getEnvs_world w) as H1. rewrite He in H1. simpl in H1.
  pose proof (getRansomServices_world w1) as H2. rewrite Hs in H2. simpl in H2.
  assert (net w2 = Answer b :: ns) as Hn2
    by (rewrite H2, H1; simpl; by rewrite Hn).
  pose proof (createRuleset_answer
                ("Auto Deny Rules - " +:+ Format "Jan 02, 2006 15:04:05" (clock w2))
                w2 b ns m Hn2 Hb) as H3.
  rewrite Hr in H3. simpl in H3. by injection H3.
Qed.

(** X9. What [main] has asked of the transport when its set-up ends, in
    order: the environments, the services, the creation of the rule set,
    the workloads of every environment, and, only when there is something
    to query, the address list.  So when nothing is to be queried [main]
    returns having created a rule set, and when the set-up is fatal it has
    submitted at most that creation. *)
Theorem setup_requests flags w :
  ∃ evs, did w (snd (mainSetup Format flags w)) evs ∧
    match fst (mainSetup Format flags w) with
    | inl (Fatal _) =>
        submissions evs = []
        ∨ submissions evs
          = [mkRequest POST ruleSetsURL
               (Some (ruleSetPayload (ruleSetName (clock w))))]
    | inl Returned =>
        ∃ envs, fst (getEnvs w) = Ok envs
          ∧ evs = [Request (mkRequest GET envsURL None);
                   Request (mkRequest GET servicesURL None);
                   Request (mkRequest POST ruleSetsURL
                              (Some (ruleSetPayload (ruleSetName (clock w)))))]
                  ++ workloadsRequests envs
    | inr _ =>
        ∃ envs, fst (getEnvs w) = Ok envs
          ∧ evs = [Request (mkRequest GET envsURL None);
                   Request (mkRequest GET servicesURL None);
                   Request (mkRequest POST ruleSetsURL
                              (Some (ruleSetPayload (ruleSetName (clock w)))))]
                  ++ workloadsRequests envs
                  ++ [Request (mkRequest GET (ipListsURL targetIPListName) None)]
    end.
Proof.
  unfold mainSetup.
  pose proof (getEnvs_world w) as H1.
  destruct (getEnvs w) as [[envs|e] w1]; simpl in H1; subst w1.
  2:{ exists [Request (mkRequest GET envsURL None)]. split; [done | by left]. }
  pose proof (getRansomServices_world (asked w (mkRequest GET envsURL None))) as H2.
  destruct (getRansomServices _) as [[services|e] w2]; simpl in H2; subst w2.
  2:{ exists [Request (mkRequest GET envsURL None);
              Request (mkRequest GET servicesURL None)].
      split; [done | by left]. }
  cbn [clock asked].
  pose proof (createRuleset_world (ruleSetName (clock w))
                (asked (asked w (mkRequest GET envsURL None))
                   (mkRequest GET servicesURL None))) as H3.
  unfold ruleSetName in H3 at 1.
  destruct (createRuleset _ _) as [[href|e] w3]; simpl in H3; subst w3.
  2:{ exists [Request (mkRequest GET envsURL None);
              Request (mkRequest GET servicesURL None);
              Request (mkRequest POST ruleSetsURL
                         (Some (ruleSetPayload (ruleSetName (clock w)))))].
      split; [done|]. by right. }
  set (w3 := asked _ (mkRequest POST ruleSetsURL _)).
  assert (did w w3
            [Request (mkRequest GET envsURL None);
             Request (mkRequest GET servicesURL None);
             Request (mkRequest POST ruleSetsURL
                        (Some (ruleSetPayload (ruleSetName (clock w)))))])
    as Hd3 by done.
  destruct (loadEnvInfos_frame envs w3) as (Hd4 & _).
  pose proof (did_trans _ _ _ _ _ Hd3 Hd4) as Hd.
  destruct (loadEnvInfos envs w3) as [envInfos w4]. simpl in Hd.
  case_decide.
  { eexists. split; [exact Hd|]. by exists envs. }
  pose proof (getIPListHref_world targetIPListName w4) as H5.
  destruct (getIPListHref _ w4) as [[ip|e] w5]; simpl in H5; subst w5.
  - eexists. split; [exact (did_trans _ _ _ _ _ Hd (did_asked w4 _))|].
    exists envs. split; [done|]. simpl. by rewrite <- ?app_assoc.
  - eexists. split; [exact (did_trans _ _ _ _ _ Hd (did_asked w4 _))|].
    right. rewrite !submissions_app. simpl.
    unfold workloadsRequests.
    assert (∀ l : list Label,
      submissions ((fun env => Request (mkRequest GET (workloadsURL env) None))
                     <$> l) = []) as ->
      by (induction l; [done | simpl; done]).
    done.
Qed.

End SetupMore.

(** The catalog again, the rule set created without a handle in the
    answer. *)
Definition handlelessWorld : World :=
  mkWorld 1700000000000000000
    [Answer (labelsBody [prod; staging]);
     Answer (servicesBody [rdp]);
     Answer (objectBody [("name", VStr "Auto Deny Rules")]);
     Answer (workloadsBody [[prod; web]; [prod; db]; [prod; web]]);
     Answer (workloadsBody []);
     Answer (ipListsBody [anyIPList])]
    [] [].

Definition handlelessPlan : Plan :=
  Eval vm_compute in
    match fst (mainSetup stamp demoFlags handlelessWorld) with
    | inr plan => plan
    | inl _ => emptyPlan
    end.

Lemma rule_set_handle_witness :
  mainSetup stamp demoFlags handlelessWorld
  = (inr handlelessPlan, snd (mainSetup stamp demoFlags handlelessWorld))
  ∧ pl_rulesetHref handlelessPlan = "".
Proof.
  assert (mainSetup stamp demoFlags handlelessWorld
          = (inr handlelessPlan, snd (mainSetup stamp demoFlags handlelessWorld)))
    as Hsetup by (vm_compute; reflexivity).
  split; [exact Hsetup|].
  refine (eq_trans
    (rule_set_handle stamp demoFlags handlelessWorld handlelessPlan _
       (Answer (labelsBody [prod; staging]))
       (Answer (servicesBody [rdp]))
       (objectBody [("name", VStr "Auto Deny Rules")])
       [Answer (workloadsBody [[prod; web]; [prod; db]; [prod; web]]);
        Answer (workloadsBody []);
        Answer (ipListsBody [anyIPList])]
       (list_to_map [("name", VStr "Auto Deny Rules")])
       Hsetup _ _) _).
  - reflexivity.
  - reflexivity.
  - vm_compute. reflexivity.
Defined.

(** X10. The request [createDenyRule] makes, its only one: a POST under
    the rule set's handle whose providers are the environment, first, then
    the applications of the finding in their order; the one consumer is the
    address list and the one ingress service the risky service; the rule is
    enabled.  The call succeeds exactly when the transport answers: the
    body of the answer is not read. *)
Theorem deny_rule_request rulesetHref serviceHref apps env ipListHref w :
  ∃ payload providers,
    snd (createDenyRule rulesetHref serviceHref apps env ipListHref w)
    = asked w (mkRequest POST (apiBase +:+ rulesetHref +:+ "/deny_rules")
                 (Some payload))
    ∧ field "providers" payload = Some providers
    ∧ elems providers
      = labelRef (Href env) :: ((fun a => labelRef (Href a)) <$> apps)
    ∧ field "consumers" payload
      = Some (VSlice [goMap [("ip_list", goMap [("href", VStr ipListHref)])]])
    ∧ field "ingress_services" payload
      = Some (VSlice [goMap [("href", VStr serviceHref)]])
    ∧ field "enabled" payload = Some (VBool true)
    ∧ (fst (createDenyRule rulesetHref serviceHref apps env ipListHref w) = Ok tt
       ↔ ∃ b ns, net w = Answer b :: ns).
Proof.
  exists (denyRulePayload serviceHref apps env ipListHref). eexists.
  split; [|split; [|split; [|split; [|split; [|split]]]]].
  - unfold createDenyRule. rewrite bind_run.
    pose proof (apiRequestWithRetry_world POST
                  (apiBase +:+ rulesetHref +:+ "/deny_rules")
                  (Some (denyRulePayload serviceHref apps env ipListHref)) w) as H.
    destruct (apiRequestWithRetry _ _ _ w) as [[data|e] w1]; simpl in H; by subst w1.
  - unfold denyRulePayload, goMap at 1. cbn [field].
    rewrite list_to_map_cons. by rewrite lookup_insert_eq.
  - rewrite elems_foldl_goAppend by eauto. reflexivity.
  - unfold denyRulePayload, goMap at 1. cbn [field].
    rewrite !list_to_map_cons.
    rewrite lookup_insert_ne by done. by rewrite lookup_insert_eq.
  - unfold denyRulePayload, goMap at 1. cbn [field].
    rewrite !list_to_map_cons.
    do 3 (rewrite lookup_insert_ne by done). by rewrite lookup_insert_eq.
  - unfold denyRulePayload, goMap at 1. cbn [field].
    rewrite !list_to_map_cons.
    do 2 (rewrite lookup_insert_ne by done). by rewrite lookup_insert_eq.
  - unfold createDenyRule. rewrite bind_run. unfold apiRequestWithRetry.
    destruct (net w) as [|[e|b] ns]; simpl; split; try done.
    + intros (b' & ns' & H). discriminate.
    + intros (b' & ns' & H). discriminate.
    + eauto.
Qed.

(** ** The transport, attempt by attempt

    [apiRequestWithRetry] as the source has it.  The libraries' parts are
    parameters: [json.Marshal], the error of [http.NewRequest] if any, what
    [httpClient.Do] gives back at each attempt and what the random source
    gives at each draw. *)

Module Transport.

(** What [httpClient.Do] and the reading of the body give for one
    attempt. *)
Inductive outcome : Type :=
  | DoErr (err : error)
  | Response (StatusCode : Z) (data : string).

(** What a call does that can be seen from outside, in order. *)
Inductive tevent : Type :=
  | Do (m : method) (urlStr : string) (body : string)
  | Sleep (d : Z).

Definition Millisecond : Z := 1000000.

Definition retries : nat := 3.

Section Call.

Variable Marshal : GoVal -> result string.
Variable NewRequest : method -> string -> option error.
Variable do : nat -> outcome.
Variable rnd : nat -> Z.

(** [rand.Intn(n)] on the [i]-th draw. *)
Definition Intn (i : nat) (n : Z) : Z := (rnd i mod n)%Z.

(** [time.Duration(1<<i)*time.Second + time.Duration(rand.Intn(500))*time.Millisecond] *)
Definition pause (i : nat) : Z :=
  (Z.shiftl 1 (Z.of_nat i) * Second + Intn i 500 * Millisecond)%Z.

(** [fmt.Errorf("HTTP %d: %s", resp.StatusCode, string(data))] *)
Definition httpError (StatusCode : Z) (data : string) : error :=
  "HTTP " +:+ pretty StatusCode +:+ ": " +:+ data.

(** [fmt.Errorf("apiRequest failed after %d retries: %v", retries, lastErr)] *)
Definition failed (lastErr : option error) : error :=
  "apiRequest failed after " +:+ pretty retries +:+ " retries: "
  +:+ default "<nil>" lastErr.

(** The loop [for i := 0; i < retries; i++], with [n = retries - i]
    iterations to go. *)
Fixpoint attempts (n i : nat) (lastErr : option error)
    (m : method) (urlStr body : string) : result string * list tevent :=
  match n with
  | O => (Err (failed lastErr), [])
  | S n' =>
      match NewRequest m urlStr with
      | Some err => (Err err, [])
      | None =>
          let again (lastErr : error) :=
            let '(r, t) := attempts n' (S i) (Some lastErr) m urlStr body in
            (r, Do m urlStr body :: Sleep (pause i) :: t) in
          match do i with
          | DoErr err => again err
          | Response StatusCode data =>
              if decide (200 ≤ StatusCode ∧ StatusCode < 300)%Z
              then (Ok data, [Do m urlStr body])
              else again (httpError StatusCode data)
          end
      end
  end.

Definition apiRequestWithRetry (m : method) (urlStr : string)
    (payload : option GoVal) : result string * list tevent :=
  match payload with
  | Some p =>
      match Marshal p with
      | Err err => (Err err, [])
      | Ok body => attempts retries 0 None m urlStr body
      end
  | None => attempts retries 0 None m urlStr ""
  end.

(** The body of an attempt that is taken as the answer, and the error of
    one that is not. *)
Definition accepted (o : outcome) : option string :=
  match o with
  | Response StatusCode data =>
      if decide (200 ≤ StatusCode ∧ StatusCode < 300)%Z then Some data else None
  | DoErr _ => None
  end.

Definition errorOf (o : outcome) : error :=
  match o with
  | DoErr err => err
  | Response StatusCode data => httpError StatusCode data
  end.

(** The body sent: the payload marshalled, nothing without a payload. *)
Definition marshalled (payload : option GoVal) : result string :=
  match payload with
  | Some p => Marshal p
  | None => Ok ""
  end.

(** [k] failed attempts from the [i]-th on, each followed by its pause. *)
Definition failures (m : method) (urlStr body : string) (i k : nat)
    : list tevent :=
  j ← seq i k; [Do m urlStr body; Sleep (pause j)].

(** The time spent in [time.Sleep]. *)
Definition slept (t : list tevent) : Z :=
  foldr (fun e acc => match e with Sleep d => (d + acc)%Z | Do _ _ _ => acc end)
        0%Z t.

Lemma attempts_S n i lastErr m urlStr body :
  NewRequest m urlStr = None ->
  attempts (S n) i lastErr m urlStr body
  = match accepted (do i) with
    | Some data => (Ok data, [Do m urlStr body])
    | None =>
        let '(r, t) := attempts n (S i) (Some (errorOf (do i))) m urlStr body in
        (r, Do m urlStr body :: Sleep (pause i) :: t)
    end.
Proof.
  intros HN. simpl. rewrite HN. destruct (do i) as [err|code data]; simpl.
  - done.
  - by case_decide.
Qed.

Lemma attempts_skip m urlStr body k : ∀ n i lastErr,
  NewRequest m urlStr = None ->
  (∀ j, j < k -> accepted (do (i + j)) = None) ->
  attempts (k + n) i lastErr m urlStr body
  = let '(r, t) := attempts n (i + k)
                     (match k with
                      | O => lastErr
                      | S k' => Some (errorOf (do (i + k')))
                      end) m urlStr body in
    (r, failures m urlStr body i k ++ t).
Proof.
  induction k as [|k IH]; intros n i lastErr HN Hf.
  - rewrite Nat.add_0_r. simpl. by destruct (attempts n i lastErr m urlStr body).
  - change (S k + n) with (S (k + n)). rewrite attempts_S by done.
    pose proof (Hf 0 ltac:(lia)) as H0. rewrite Nat.add_0_r in H0. rewrite H0.
    rewrite (IH n (S i) (Some (errorOf (do i))) HN).
    2:{ intros j Hj. replace (S i + j) with (i + S j) by lia. apply Hf. lia. }
    replace (S i + k) with (i + S k) by lia.
    assert (match k with
            | O => Some (errorOf (do i))
            | S k' => Some (errorOf (do (S i + k')))
            end = Some (errorOf (do (i + k)))) as ->.
    { destruct k as [|k']; [by rewrite Nat.add_0_r|].
      by replace (S i + k') with (i + S k') by lia. }
    by destruct (attempts n (i + S k) _ m urlStr body).
Qed.

Lemma pause_bounds i :
  (2 ^ Z.of_nat i * Second ≤ pause i
   < 2 ^ Z.of_nat i * Second + 500 * Millisecond)%Z.
Proof.
  unfold pause, Intn, Millisecond.
  rewrite Z.shiftl_1_l.
  pose proof (Z.mod_pos_bound (rnd i) 500 ltac:(lia)). lia.
Qed.

Lemma attempts_first m urlStr body k n i lastErr data :
  NewRequest m urlStr = None ->
  (∀ j, j < k -> accepted (do (i + j)) = None) ->
  accepted (do (i + k)) = Some data ->
  attempts (k + S n) i lastErr m urlStr body
  = (Ok data, failures m urlStr body i k ++ [Do m urlStr body]).
Proof.
  intros HN Hf Ha. rewrite attempts_skip by done.
  rewrite attempts_S by done. by rewrite Ha.
Qed.

Lemma attempts_none m urlStr body k i lastErr :
  NewRequest m urlStr = None ->
  (∀ j, j < S k -> accepted (do (i + j)) = None) ->
  attempts (S k) i lastErr m urlStr body
  = (Err (failed (Some (errorOf (do (i + k))))), failures m urlStr body i (S k)).
Proof.
  intros HN Hf. rewrite <- (Nat.add_0_r (S k)) at 1.
  rewrite attempts_skip by done. simpl. by rewrite app_nil_r.
Qed.

(** X11. The first attempt, of the three, that is answered with a status
    from 200 to 299 ends the call: its body is returned and no later
    attempt is made.  Each attempt before it was followed by a pause, of
    1 s after the first and 2 s after the second, plus less than half a
    second. *)
Theorem first_accepted_returned m urlStr payload body k data :
  marshalled payload = Ok body ->
  NewRequest m urlStr = None ->
  k < retries ->
  (∀ j, j < k -> accepted (do j) = None) ->
  accepted (do k) = Some data ->
  apiRequestWithRetry m urlStr payload
  = (Ok data, failures m urlStr body 0 k ++ [Do m urlStr body])
  ∧ ∀ j, (2 ^ Z.of_nat j * Second ≤ pause j
          < 2 ^ Z.of_nat j * Second + 500 * Millisecond)%Z.
Proof.
  intros Hm HN Hk Hf Ha. split; [|apply pause_bounds].
  assert (apiRequestWithRetry m urlStr payload
          = attempts retries 0 None m urlStr body) as ->.
  { unfold apiRequestWithRetry, marshalled in *.
    destruct payload as [p|]; [by rewrite Hm | by injection Hm as <-]. }
  unfold retries in *.
  replace 3 with (k + S (2 - k)) by lia.
  by apply attempts_first.
Qed.

(** X12. When none of the three attempts is answered with a status from
    200 to 299 the call fails with the error of the third attempt, behind
    the words "apiRequest failed after 3 retries".  A pause follows every
    failed attempt, the third one too: the caller gets the error after more
    than 7 s and less than 8.5 s of pauses. *)
Theorem three_failures m urlStr payload body :
  marshalled payload = Ok body ->
  NewRequest m urlStr = None ->
  (∀ j, j < retries -> accepted (do j) = None) ->
  apiRequestWithRetry m urlStr payload
  = (Err ("apiRequest failed after 3 retries: " +:+ errorOf (do 2)),
     [Do m urlStr body; Sleep (pause 0);
      Do m urlStr body; Sleep (pause 1);
      Do m urlStr body; Sleep (pause 2)])
  ∧ (7 * Second ≤ slept (snd (apiRequestWithRetry m urlStr payload))
     < 8 * Second + 500 * Millisecond)%Z.
Proof.
  intros Hm HN Hf.
  assert (apiRequestWithRetry m urlStr payload
          = attempts retries 0 None m urlStr body) as ->.
  { unfold apiRequestWithRetry, marshalled in *.
    destruct payload as [p|]; [by rewrite Hm | by injection Hm as <-]. }
  unfold retries in *. rewrite attempts_none by done.
  split; [reflexivity|]. cbn [snd failures]. simpl.
  pose proof (pause_bounds 0). pose proof (pause_bounds 1).
  pose proof (pause_bounds 2). unfold Second, Millisecond in *.
  simpl in *. lia.
Qed.

(** X13. Every call ends in one of four ways.  The payload cannot be
    marshalled, or the request cannot be built: that error is returned as
    it is, without an attempt and without a pause.  Or one of the three
    attempts is the first to be accepted and its body is returned; or all
    three fail.  So a body is only ever returned from an accepted attempt,
    and never more than three attempts are made. *)
Theorem call_outcomes m urlStr payload :
  (∃ err, marshalled payload = Err err
          ∧ apiRequestWithRetry m urlStr payload = (Err err, []))
  ∨ (∃ body err, marshalled payload = Ok body
          ∧ NewRequest m urlStr = Some err
          ∧ apiRequestWithRetry m urlStr payload = (Err err, []))
  ∨ (∃ body k data, marshalled payload = Ok body
          ∧ k < 3 ∧ (∀ j, j < k -> accepted (do j) = None)
          ∧ accepted (do k) = Some data
          ∧ apiRequestWithRetry m urlStr payload
            = (Ok data, failures m urlStr body 0 k ++ [Do m urlStr body]))
  ∨ (∃ body, marshalled payload = Ok body
          ∧ (∀ j, j < 3 -> accepted (do j) = None)
          ∧ apiRequestWithRetry m urlStr payload
            = (Err (failed (Some (errorOf (do 2)))),
               failures m urlStr body 0 3)).
Proof.
  destruct (marshalled payload) as [body|err] eqn:Hm.
  2:{ left. exists err. split; [done|].
      unfold apiRequestWithRetry, marshalled in *.
      destruct payload as [p|]; [by rewrite Hm | done]. }
  right.
  assert (apiRequestWithRetry m urlStr payload
          = attempts retries 0 None m urlStr body) as ->.
  { unfold apiRequestWithRetry, marshalled in *.
    destruct payload as [p|]; [by rewrite Hm | by injection Hm as <-]. }
  destruct (NewRequest m urlStr) as [err|] eqn:HN.
  { left. exists body, err. simpl. by rewrite HN. }
  right. unfold retries.
  assert (∀ k, (∀ j, j < k -> accepted (do j) = None)
               ∨ ∃ k' data, k' < k ∧ (∀ j, j < k' -> accepted (do j) = None)
                            ∧ accepted (do k') = Some data) as Hfirst.
  { induction k as [|k [IH|(k' & data & ? & ? & ?)]].
    - left. intros j Hj. lia.
    - destruct (accepted (do k)) as [data|] eqn:Ek.
      + right. exists k, data. repeat split; [lia | done | done].
      + left. intros j Hj. destruct (decide (j = k)) as [->|]; [done|].
        apply IH. lia.
    - right. exists k', data. repeat split; [lia | done | done]. }
  destruct (Hfirst 3) as [Hnone|(k & data & Hk & Hf & Ha)].
  - right. exists body. repeat split; [done|]. by rewrite attempts_none.
  - left. exists body, k, data. repeat split; try done.
    replace 3 with (k + S (2 - k)) by lia. by apply attempts_first.
Qed.

End Call.

(** A server that is busy once and then answers, and one that stays busy. *)
Definition noMarshal (v : GoVal) : result string := Ok "{}".
Definition anyRequest (m : method) (urlStr : string) : option error := None.
Definition busyOnce (i : nat) : outcome :=
  match i with
  | O => Response 503 "busy"
  | S _ => Response 200 "[]"
  end.
Definition busy (i : nat) : outcome := Response 503 "busy".
Definition draws (i : nat) : Z := 1234 + Z.of_nat i.

Lemma first_accepted_returned_witness :
  apiRequestWithRetry noMarshal anyRequest busyOnce draws GET "u" None
  = (Ok "[]", failures draws GET "u" "" 0 1 ++ [Do GET "u" ""])
  ∧ ∀ j, (2 ^ Z.of_nat j * Second ≤ pause draws j
          < 2 ^ Z.of_nat j * Second + 500 * Millisecond)%Z.
Proof.
  apply (first_accepted_returned noMarshal anyRequest busyOnce draws
           GET "u" None "" 1 "[]").
  - reflexivity.
  - reflexivity.
  - unfold retries. lia.
  - intros j Hj. destruct j as [|j]; [reflexivity | lia].
  - reflexivity.
Defined.

Lemma three_failures_witness :
  apiRequestWithRetry noMarshal anyRequest busy draws GET "u" None
  = (Err ("apiRequest failed after 3 retries: " +:+ errorOf (busy 2)),
     [Do GET "u" ""; Sleep (pause draws 0);
      Do GET "u" ""; Sleep (pause draws 1);
      Do GET "u" ""; Sleep (pause draws 2)])
  ∧ (7 * Second
     ≤ slept (snd (apiRequestWithRetry noMarshal anyRequest busy draws
                     GET "u" None))
     < 8 * Second + 500 * Millisecond)%Z.
Proof.
  apply (three_failures noMarshal anyRequest busy draws GET "u" None "").
  - reflexivity.
  - reflexivity.
  - intros j Hj. reflexivity.
Defined.

End Transport.

(** ** The fan-out and the rule creation, counted *)

Lemma wrap64_add_l a b : wrap64 (wrap64 a + b) = wrap64 (a + b).
Proof.
  unfold wrap64. f_equal.
  replace ((a + 2 ^ 63) mod 2 ^ 64 - 2 ^ 63 + b + 2 ^ 63)%Z
    with ((a + 2 ^ 63) mod 2 ^ 64 + b)%Z by lia.
  rewrite Zplus_mod_idemp_l. f_equal. lia.
Qed.

Lemma wrap64_add_r a b : wrap64 (a + wrap64 b) = wrap64 (a + b).
Proof. rewrite (Z.add_comm a), wrap64_add_l. f_equal. lia. Qed.

Lemma countQueries_wrap services envInfos :
  countQueries services envInfos
  = wrap64 (sumZ (map (fun ei => queriesFor services (ei_apps ei)) envInfos)).
Proof.
  unfold countQueries.
  assert (∀ l acc,
    foldl (fun totalQueries ei =>
             wrap64 (totalQueries
                     + wrap64 (Z.of_nat (length services)
                               * Z.of_nat (length (ei_apps ei)))))
          (wrap64 acc) l
    = wrap64 (acc + sumZ (map (fun ei => queriesFor services (ei_apps ei)) l)))
    as H.
  { induction l as [|ei l IH]; intros acc; simpl.
    - f_equal. lia.
    - rewrite wrap64_add_r, wrap64_add_l, IH. f_equal.
      unfold queriesFor. lia. }
  change 0%Z with (wrap64 0) at 1. by rewrite H.
Qed.

Lemma sum_list_snoc l n : sum_list (l ++ [n]) = sum_list l + n.
Proof. induction l as [|x l IH]; simpl; lia. Qed.

Lemma sum_list_app' l k : sum_list (l ++ k) = sum_list l + sum_list k.
Proof. induction l as [|x l IH]; simpl; lia. Qed.

Section OrchestratorMore.

Variable Format : string -> Z -> string.
Variable plan : Plan.

#[local] Arguments groups : simpl never.

(** The history is kept most recent first; these read it in the order
    things happened. *)
Fixpoint findings (h : list oevent) : list (nat * list Label) :=
  match h with
  | [] => []
  | e :: earlier =>
      findings earlier
      ++ match e with Joined gi f => [(gi, f)] | _ => [] end
  end.

Fixpoint requests (h : list oevent) : list (denyRuleInfo * result unit) :=
  match h with
  | [] => []
  | e :: earlier =>
      requests earlier
      ++ match e with RuleRequested dr r => [(dr, r)] | _ => [] end
  end.

Fixpoint launchedCount (h : list oevent) : nat :=
  match h with
  | [] => 0
  | e :: earlier =>
      match e with Launched _ _ => 1 | _ => 0 end + launchedCount earlier
  end.

Fixpoint verifiedCount (h : list oevent) : nat :=
  match h with
  | [] => 0
  | e :: earlier =>
      match e with Verified _ _ _ => 1 | _ => 0 end + verifiedCount earlier
  end.

Fixpoint createdCount (h : list oevent) : nat :=
  match h with
  | [] => 0
  | e :: earlier =>
      match e with RuleRequested _ (Ok _) => 1 | _ => 0 end
      + createdCount earlier
  end.

(** The deny rule a finding gives: none for an empty finding. *)
Definition ruleOf (x : nat * list Label) : option denyRuleInfo :=
  g ← groups plan !! x.1;
  if decide (0 < length x.2)
  then Some (mkDenyRuleInfo (ei_env (fst g)) (snd g) x.2)
  else None.

(** The queries of the groups before group [gi]. *)
Definition queriesBefore (gi : nat) : nat :=
  sum_list ((fun g : envInfo * Service => length (ei_apps (fst g)))
              <$> take gi (groups plan)).

(** A finding misses none of the applications verified without traffic. *)
Fixpoint exhaustive (h : list oevent) : Prop :=
  match h with
  | [] => True
  | e :: earlier =>
      match e with
      | Joined gi f =>
          ∀ ai a, Verified gi ai (Ok true) ∈ earlier ->
                  appsAt plan gi !! ai = Some a -> a ∈ f
      | _ => True
      end ∧ exhaustive earlier
  end.

Record More (s : State) : Prop := mkMore {
  more_drained : match pc s with
                 | Fanout _ _ => True
                 | _ => querying s = [] ∧ releasing s = [] ∧ finishing s = []
                 end;
  more_found : ∀ ai a,
      Verified (cursor plan s).1 ai (Ok true) ∈ history s ->
      appsAt plan (cursor plan s).1 !! ai = Some a -> a ∈ appsNoTraffic s;
  more_exhaustive : exhaustive (history s);
  more_verified : doneQueries s = wrap64 (Z.of_nat (verifiedCount (history s)));
  more_launched : launchedCount (history s)
                  = queriesBefore (cursor plan s).1 + (cursor plan s).2;
  more_inflight : launchedCount (history s)
                  = verifiedCount (history s) + length (querying s);
  more_findings : (findings (history s)).*1 = seq 0 (cursor plan s).1;
  more_rules : denyRules s = omap ruleOf (findings (history s));
  more_requests : match pc s with
                  | Fanout _ _ => requests (history s) = []
                  | Creating rest =>
                      (requests (history s)).*1 ++ rest = denyRules s
                  | Finished => (requests (history s)).*1 = denyRules s
                  end;
  more_created : doneDenyRules s
                 = wrap64 (Z.of_nat (createdCount (history s)));
}.

Lemma queriesBefore_S gi g :
  groups plan !! gi = Some g ->
  queriesBefore (S gi) = queriesBefore gi + length (ei_apps (fst g)).
Proof.
  intros Hg. unfold queriesBefore.
  rewrite (take_S_r _ _ _ Hg), fmap_app. simpl. by rewrite sum_list_snoc.
Qed.

Lemma More_initial : More (initial plan).
Proof.
  assert (cursor plan (initial plan) = (0, 0)) as Hc.
  { unfold cursor, initial. simpl. apply enter_cursor. lia. }
  constructor; rewrite ?Hc; simpl; try done.
  - unfold enter. by case_decide.
  - intros ai a H. inversion H.
  - unfold enter. by case_decide.
Qed.

Lemma More_ALaunch s s' :
  Inv plan s -> More s -> step Format plan ALaunch s = Some s' -> More s'.
Proof.
  intros HI [Mdr Mfound Mex Mver Mla Mfl Mfi Mru Mre Mcr] Hs.
  apply step_ALaunch in Hs as (gi & next & g & app & Hpc & Hg & Happ & Hsem & ->).
  assert (cursor plan s = (gi, next)) as Hc by (unfold cursor; now rewrite Hpc).
  rewrite Hc in *. rewrite Hpc in *.
  constructor; unfold cursor; simpl in *.
  - done.
  - intros ai a [H|H]%elem_of_cons; [discriminate | by apply Mfound].
  - done.
  - done.
  - lia.
  - rewrite length_app. simpl. lia.
  - by rewrite app_nil_r.
  - by rewrite app_nil_r.
  - by rewrite app_nil_r.
  - done.
Qed.

Lemma More_AVerify k w s s' :
  Inv plan s -> More s -> step Format plan (AVerify k w) s = Some s' -> More s'.
Proof.
  intros HI [Mdr Mfound Mex Mver Mla Mfl Mfi Mru Mre Mcr] Hs.
  apply step_AVerify in Hs as (t & g & r & Ht & Hg & Hr & ->).
  pose proof (lookup_lt_Some _ _ _ Ht) as Hlt.
  assert (t ∈ querying s) as Hin by (by eapply list_elem_of_lookup_2).
  destruct (inv_tasks _ _ HI t Hin) as (Htg & Hti & Hta & Hno).
  assert (∀ p q r se wg an dn dq tq dd h,
            cursor plan (mkState (pc s) p q r se wg an dn dq tq dd h)
            = cursor plan s) as Hcur by reflexivity.
  constructor; rewrite ?Hcur; simpl.
  - destruct (pc s); [done | |]; destruct Mdr as (Hq & _);
      rewrite Hq in Ht; discriminate.
  - intros ai a [[= E1 E2 E3]|H]%elem_of_cons Ha.
    + rewrite <- E3. apply elem_of_app. right.
      rewrite E1, E2, Hta in Ha. injection Ha as ->. by left.
    + specialize (Mfound ai a H Ha).
      destruct r as [[|]|e]; [apply elem_of_app; by left | done | done].
  - done.
  - rewrite Mver, wrap64_add_l. f_equal. lia.
  - done.
  - rewrite length_delete by eauto. lia.
  - by rewrite app_nil_r.
  - by rewrite app_nil_r.
  - rewrite app_nil_r. by destruct (pc s).
  - done.
Qed.

Lemma More_ARelease k s s' :
  Inv plan s -> More s -> step Format plan (ARelease k) s = Some s' -> More s'.
Proof.
  intros HI [Mdr Mfound Mex Mver Mla Mfl Mfi Mru Mre Mcr] Hs.
  apply step_ARelease in Hs as (t & Ht & ->).
  constructor; try done. simpl.
  destruct (pc s); [done | |]; destruct Mdr as (_ & Hq & _);
    rewrite Hq in Ht; discriminate.
Qed.

Lemma More_AFinish k s s' :
  Inv plan s -> More s -> step Format plan (AFinish k) s = Some s' -> More s'.
Proof.
  intros HI [Mdr Mfound Mex Mver Mla Mfl Mfi Mru Mre Mcr] Hs.
  apply step_AFinish in Hs as (t & Ht & ->).
  constructor; try done. simpl.
  destruct (pc s); [done | |]; destruct Mdr as (_ & _ & Hq);
    rewrite Hq in Ht; discriminate.
Qed.

Lemma More_AJoin s s' :
  Inv plan s -> More s -> step Format plan AJoin s = Some s' -> More s'.
Proof.
  intros HI [Mdr Mfound Mex Mver Mla Mfl Mfi Mru Mre Mcr] Hs.
  apply step_AJoin in Hs as (gi & next & g & rules & Hpc & Hg & Hnext & Hwg
                             & Hrules & ->).
  assert (cursor plan s = (gi, next)) as Hc by (unfold cursor; now rewrite Hpc).
  pose proof (inv_wg _ _ HI) as Iwg. pose proof (inv_ver _ _ HI) as Iver.
  rewrite Hc in *. rewrite Hpc in *. simpl in *.
  pose proof (lookup_lt_Some _ _ _ Hg) as Hlt.
  assert (querying s = [] ∧ releasing s = [] ∧ finishing s = []) as Hempty.
  { repeat split; apply length_zero_iff_nil; lia. }
  assert (∀ q r f se w0 an dn dq tq dd h,
            cursor plan
              (mkState (enter plan (S gi) rules) q r f se w0 an dn dq tq dd h)
            = (S gi, 0)) as Hcur
    by (intros; unfold cursor; cbn [pc]; apply enter_cursor; lia).
  constructor; rewrite ?Hcur; simpl.
  - unfold enter.
    destruct (decide (S gi < length (groups plan))); [done | exact Hempty].
  - intros ai a [H|H]%elem_of_cons; [discriminate|].
    apply Iver in H. lia.
  - split; [|done]. intros ai a. apply Mfound.
  - done.
  - rewrite Mla, (queriesBefore_S _ _ Hg). lia.
  - done.
  - change (0 :: seq 1 gi) with (seq 0 (S gi)).
    by rewrite seq_S, fmap_app, Mfi.
  - rewrite omap_app. simpl. unfold ruleOf at 2. simpl. rewrite Hg. simpl.
    subst rules. rewrite Mru. case_decide; [done | by rewrite app_nil_r].
  - rewrite Mre. simpl. unfold enter.
    by destruct (decide (S gi < length (groups plan))).
  - done.
Qed.

Lemma More_ACreate w s s' :
  Inv plan s -> More s -> step Format plan (ACreate w) s = Some s' -> More s'.
Proof.
  intros HI [Mdr Mfound Mex Mver Mla Mfl Mfi Mru Mre Mcr] Hs.
  apply step_ACreate in Hs as (dr & rest & r & Hpc & Hr & ->).
  assert (cursor plan s = (length (groups plan), 0)) as Hc
    by (unfold cursor; now rewrite Hpc).
  assert (∀ q r f se w0 an dn dq tq dd h,
            cursor plan (mkState (Creating rest) q r f se w0 an dn dq tq dd h)
            = cursor plan s) as Hcur by (intros; by rewrite Hc).
  rewrite Hpc in *.
  constructor; rewrite ?Hcur; simpl.
  - done.
  - intros ai a [H|H]%elem_of_cons; [discriminate | by apply Mfound].
  - done.
  - done.
  - done.
  - done.
  - by rewrite app_nil_r.
  - by rewrite app_nil_r.
  - rewrite fmap_app, <- app_assoc. exact Mre.
  - rewrite Mcr. destruct r as [[]|e]; simpl; [|done].
    rewrite wrap64_add_l. f_equal. lia.
Qed.

Lemma More_AReturn s s' :
  Inv plan s -> More s -> step Format plan AReturn s = Some s' -> More s'.
Proof.
  intros HI [Mdr Mfound Mex Mver Mla Mfl Mfi Mru Mre Mcr] Hs.
  apply step_AReturn in Hs as (Hpc & ->).
  assert (cursor plan s = (length (groups plan), 0)) as Hc
    by (unfold cursor; now rewrite Hpc).
  assert (∀ q r f se w0 an dn dq tq dd h,
            cursor plan (mkState Finished q r f se w0 an dn dq tq dd h)
            = cursor plan s) as Hcur by (intros; by rewrite Hc).
  rewrite Hpc in *.
  constructor; rewrite ?Hcur; simpl; try done.
  by rewrite app_nil_r in Mre.
Qed.

Lemma More_step a s s' :
  Inv plan s -> More s -> step Format plan a s = Some s' -> More s'.
Proof.
  destruct a; eauto using More_ALaunch, More_AVerify, More_ARelease,
    More_AFinish, More_AJoin, More_ACreate, More_AReturn.
Qed.

Lemma More_exec acts : ∀ s s',
  Inv plan s -> More s -> exec Format plan acts s = Some s' -> More s'.
Proof.
  induction acts as [|a acts IH]; intros s s' HI HM H; simpl in H.
  - by injection H as <-.
  - destruct (step Format plan a s) as [s1|] eqn:E; [|discriminate].
    simpl in H. eapply (IH s1); [by eapply Inv_step | by eapply More_step | done].
Qed.

Lemma More_run acts s :
  exec Format plan acts (initial plan) = Some s -> Inv plan s ∧ More s.
Proof.
  intros H. split.
  - apply (Inv_reachable Format). by exists acts.
  - eapply More_exec; [apply Inv_initial | apply More_initial | exact H].
Qed.

Lemma exhaustive_split later e earlier :
  exhaustive (later ++ e :: earlier) ->
  match e with
  | Joined gi f =>
      ∀ ai a, Verified gi ai (Ok true) ∈ earlier ->
              appsAt plan gi !! ai = Some a -> a ∈ f
  | _ => True
  end.
Proof.
  induction later as [|x later IH]; intros [H1 H2].
  - exact H1.
  - exact (IH H2).
Qed.

Lemma queriesBefore_mono i j : i ≤ j -> queriesBefore i ≤ queriesBefore j.
Proof.
  induction 1 as [|j Hij IH]; [done|].
  destruct (groups plan !! j) as [g|] eqn:Hg.
  - rewrite (queriesBefore_S _ _ Hg). lia.
  - unfold queriesBefore in *. apply lookup_ge_None in Hg.
    rewrite (take_ge _ (S j)) by lia. by rewrite (take_ge _ j) in IH by lia.
Qed.

Lemma queriesBefore_cursor s :
  Inv plan s ->
  queriesBefore (cursor plan s).1 + (cursor plan s).2
  ≤ queriesBefore (length (groups plan)).
Proof.
  intros HI. destruct (inv_pos _ _ HI) as [H1 H2].
  destruct (groups plan !! (cursor plan s).1) as [g|] eqn:Hg.
  - rewrite (appsAt_lookup _ _ _ Hg) in H1.
    pose proof (queriesBefore_S _ _ Hg).
    pose proof (lookup_lt_Some _ _ _ Hg).
    pose proof (queriesBefore_mono (S (cursor plan s).1) (length (groups plan))
                  ltac:(lia)).
    lia.
  - unfold appsAt in H1. rewrite Hg in H1. simpl in H1.
    apply lookup_ge_None in Hg.
    replace (cursor plan s).1 with (length (groups plan)) by lia. lia.
Qed.

Lemma group_queries (ei : envInfo) (services : list Service) :
  sum_list ((fun g : envInfo * Service => length (ei_apps (fst g)))
              <$> (services ≫= fun service => [(ei, service)]))
  = length (ei_apps ei) * length services.
Proof.
  induction services as [|svc svcs IH]; [simpl; lia|].
  rewrite bind_cons, fmap_app, sum_list_app', IH. simpl. lia.
Qed.

Lemma queriesBefore_all :
  Z.of_nat (queriesBefore (length (groups plan)))
  = sumZ (map (fun ei => queriesFor (pl_services plan) (ei_apps ei))
            (pl_envInfos plan)).
Proof.
  unfold queriesBefore. rewrite take_ge by lia.
  unfold groups, groupsOf.
  induction (pl_envInfos plan) as [|ei l IH]; [done|].
  rewrite bind_cons, fmap_app, sum_list_app', Nat2Z.inj_add, IH. simpl.
  f_equal. rewrite group_queries. unfold queriesFor. lia.
Qed.

(** X14. The finding of a join is exact: it holds the applications of the
    group whose verification came back (true, nil) before the join, all of
    them and no other.  No application found without traffic is lost on
    the way to the deny rule, whichever way the goroutines interleave. *)
Theorem finding_exact acts s later gi f earlier :
  exec Format plan acts (initial plan) = Some s ->
  history s = later ++ Joined gi f :: earlier ->
  ∀ a, a ∈ f ↔ ∃ ai, appsAt plan gi !! ai = Some a
                     ∧ Verified gi ai (Ok true) ∈ earlier.
Proof.
  intros [HI HM]%More_run Hh a. split.
  - intros Ha. pose proof (barrier_at _ _ _ _ _ HI Hh) as [_ Hb]. by apply Hb.
  - intros (ai & Ha & Hv).
    pose proof (more_exhaustive _ HM) as Hex. rewrite Hh in Hex.
    apply exhaustive_split in Hex. by eapply Hex.
Qed.

(** X15. The progress counter counts the verifications that have returned,
    one each whatever the outcome.  It never passes the number of planned
    queries, which is the total [main] computed, and it has reached it when
    the fan-out is over: every planned query has then been run, once. *)
Theorem progress_counts flags w w' acts s :
  mainSetup Format flags w = (inr plan, w') ->
  exec Format plan acts (initial plan) = Some s ->
  doneQueries s = wrap64 (Z.of_nat (verifiedCount (history s)))
  ∧ totalQueries s
    = wrap64 (Z.of_nat (queriesBefore (length (groups plan))))
  ∧ launchedCount (history s) = verifiedCount (history s) + inFlight s
  ∧ launchedCount (history s) ≤ queriesBefore (length (groups plan))
  ∧ ((∀ gi next, pc s ≠ Fanout gi next) ->
     verifiedCount (history s) = queriesBefore (length (groups plan))
     ∧ doneQueries s = totalQueries s).
Proof.
  intros Hsetup [HI HM]%More_run.
  apply mainSetup_plan in Hsetup
    as (envs & w1 & w2 & w3 & w4 & _ & _ & _ & _ & Ht & _).
  assert (totalQueries s
          = wrap64 (Z.of_nat (queriesBefore (length (groups plan))))) as Htot.
  { rewrite (inv_total _ _ HI), Ht, countQueries_wrap. f_equal.
    symmetry. apply queriesBefore_all. }
  destruct HM as [Mdr _ _ Mver Mla Mfl _ _ _ _].
  split; [done|]. split; [done|]. split; [done|]. split.
  - rewrite Mla. by apply queriesBefore_cursor.
  - intros Hpc.
    assert (cursor plan s = (length (groups plan), 0)
            ∧ querying s = []) as [Hc Hq].
    { unfold cursor. destruct (pc s) as [gi next|rest|];
        [by destruct (Hpc gi next) | by destruct Mdr | by destruct Mdr]. }
    rewrite Hc, Hq in *. simpl in *.
    assert (verifiedCount (history s) = queriesBefore (length (groups plan)))
      as Hall by lia.
    split; [done|]. by rewrite Mver, Htot, Hall.
Qed.

(** X16. When [main] has returned: every group was joined once, in the
    order of the loops; the deny rules are the findings that are not
    empty, in that order, so none has an empty application list; each has
    been requested exactly once, in that order, a failed request not
    stopping the ones after it; and the counter of created rules counts
    the requests that succeeded. *)
Theorem rules_requested acts s :
  exec Format plan acts (initial plan) = Some s ->
  pc s = Finished ->
  (findings (history s)).*1 = seq 0 (length (groups plan))
  ∧ denyRules s = omap ruleOf (findings (history s))
  ∧ (requests (history s)).*1 = denyRules s
  ∧ Forall (fun dr => dr_apps dr ≠ []) (denyRules s)
  ∧ doneDenyRules s = wrap64 (Z.of_nat (createdCount (history s))).
Proof.
  intros [HI HM]%More_run Hpc.
  destruct HM as [_ _ _ _ _ _ Mfi Mru Mre Mcr].
  assert (cursor plan s = (length (groups plan), 0)) as Hc
    by (unfold cursor; by rewrite Hpc).
  rewrite Hc in Mfi. rewrite Hpc in Mre.
  repeat split; try done.
  rewrite Mru. apply Forall_forall. intros dr Hdr.
  apply list_elem_of_omap in Hdr as (x & _ & Hx).
  unfold ruleOf in Hx. destruct (groups plan !! x.1) as [g|]; [|discriminate].
  simpl in Hx. case_decide as Hlen; [|discriminate].
  injection Hx as <-. simpl. intros E. rewrite E in Hlen. simpl in Hlen. lia.
Qed.

(** X17. Once the fan-out is over no verification goroutine is left, not
    even one that only has its deferred calls to run: the semaphore is
    empty and the wait group at zero, and no traffic query is started or
    returns any more.  Deny rules are requested, and [main] returns, only
    then. *)
Theorem fanout_drained acts s :
  exec Format plan acts (initial plan) = Some s ->
  (∀ gi next, pc s ≠ Fanout gi next) ->
  querying s = [] ∧ releasing s = [] ∧ finishing s = []
  ∧ sem s = 0 ∧ wg s = 0
  ∧ step Format plan ALaunch s = None
  ∧ ∀ k w, step Format plan (AVerify k w) s = None.
Proof.
  intros [HI HM]%More_run Hpc.
  assert (querying s = [] ∧ releasing s = [] ∧ finishing s = [])
    as (Hq & Hr & Hf).
  { pose proof (more_drained _ HM) as Mdr.
    destruct (pc s) as [gi next|rest|]; [by destruct (Hpc gi next) | done | done]. }
  pose proof (inv_sem _ _ HI) as Isem. pose proof (inv_wg _ _ HI) as Iwg.
  rewrite Hq, Hr in Isem. rewrite Hq, Hr, Hf in Iwg. simpl in *.
  repeat split; try done.
  - destruct (step Format plan ALaunch s) as [s'|] eqn:E; [|done].
    apply step_ALaunch in E as (gi & next & _ & _ & E & _). by destruct (Hpc gi next).
  - intros k w. destruct (step Format plan (AVerify k w) s) as [s'|] eqn:E; [|done].
    apply step_AVerify in E as (t & _ & _ & Ht & _). rewrite Hq in Ht. discriminate.
Qed.

End OrchestratorMore.

Lemma finding_exact_witness :
  exec stamp demoPlan demoRun (initial demoPlan) = Some demoFinal
  ∧ (db ∈ [db]
     ↔ ∃ ai, appsAt demoPlan 0 !! ai = Some db
             ∧ Verified 0 ai (Ok true)
                 ∈ [Verified 0 1 (Ok true); Verified 0 0 (Err errTimeout);
                    Launched 0 1; Launched 0 0]).
Proof.
  assert (exec stamp demoPlan demoRun (initial demoPlan) = Some demoFinal)
    as Hrun by (vm_compute; reflexivity).
  split; [exact Hrun|].
  exact (finding_exact stamp demoPlan demoRun demoFinal
           [RuleRequested (mkDenyRuleInfo prod rdp [db]) (Ok tt)]
           0 [db]
           [Verified 0 1 (Ok true); Verified 0 0 (Err errTimeout);
            Launched 0 1; Launched 0 0]
           Hrun eq_refl db).
Defined.

Lemma progress_counts_witness :
  mainSetup stamp demoFlags catalogWorld
  = (inr demoPlan, snd (mainSetup stamp demoFlags catalogWorld))
  ∧ doneQueries demoFinal = totalQueries demoFinal.
Proof.
  assert (mainSetup stamp demoFlags catalogWorld
          = (inr demoPlan, snd (mainSetup stamp demoFlags catalogWorld)))
    as Hsetup by (vm_compute; reflexivity).
  assert (exec stamp demoPlan demoRun (initial demoPlan) = Some demoFinal)
    as Hrun by (vm_compute; reflexivity).
  split; [exact Hsetup|].
  refine (proj2 (proj2 (proj2 (proj2 (proj2
    (progress_counts stamp demoPlan demoFlags catalogWorld _
       demoRun demoFinal Hsetup Hrun)))) _)).
  intros gi next. vm_compute. discriminate.
Defined.

Lemma rules_requested_witness :
  exec stamp demoPlan demoRun (initial demoPlan) = Some demoFinal
  ∧ (requests (history demoFinal)).*1 = denyRules demoFinal.
Proof.
  assert (exec stamp demoPlan demoRun (initial demoPlan) = Some demoFinal)
    as Hrun by (vm_compute; reflexivity).
  split; [exact Hrun|].
  refine (proj1 (proj2 (proj2
    (rules_requested stamp demoPlan demoRun demoFinal Hrun _)))).
  vm_compute. reflexivity.
Defined.

Lemma fanout_drained_witness :
  exec stamp demoPlan demoRun (initial demoPlan) = Some demoFinal
  ∧ sem demoFinal = 0 ∧ wg demoFinal = 0.
Proof.
  assert (exec stamp demoPlan demoRun (initial demoPlan) = Some demoFinal)
    as Hrun by (vm_compute; reflexivity).
  split; [exact Hrun|].
  pose proof (fanout_drained stamp demoPlan demoRun demoFinal Hrun) as H.
  assert (∀ gi next, pc demoFinal ≠ Fanout gi next) as Hpc
    by (intros gi next; vm_compute; discriminate).
  destruct (H Hpc) as (_ & _ & _ & Hs & Hw & _). by split.
Defined.
